(** * pyroller: [data/components/animation.py]

    A shallow embedding of the module's three classes:

    - [AnimationTransition], the catalogue of easing curves;
    - [Task], the deferred / looping callback runner;
    - [Animation], the time-driven attribute interpolator.

    Conventions of the embedding.

    - Python numbers ([int] and [float]) are read as real numbers with exact
      arithmetic: no rounding error, no overflow.  [math.sqrt], [math.sin],
      [math.cos], [math.pi] and [pow(2, x)] are [sqrt], [sin], [cos], [PI]
      and [Rpower 2 x].
    - A Python exception is a value [Raise e] of the type [result]; a method
      that mutates [self] before raising returns the mutated object together
      with the exception.
    - Objects animated by an [Animation] live in a heap indexed by object
      identity; an object is the finite map of its numeric attributes.
    - A callback is opaque to this module: invoking it appends an event to a
      trace and does nothing else. *)

From Stdlib Require Import Reals Lra Lia ZArith String List.
From stdpp Require Import base decidable option list gmap strings.

Local Open Scope R_scope.

(** ** Numbers *)

#[global] Instance Rlt_decision (x y : R) : Decision (x < y) := Rlt_dec x y.
#[global] Instance Rle_decision (x y : R) : Decision (x <= y) := Rle_dec x y.
#[global] Instance Rge_decision (x y : R) : Decision (x >= y) := Rge_dec x y.
#[global] Instance Req_decision : EqDecision R := Req_dec_T.

(** Case analysis on every real comparison in the goal, closing the
    impossible branches by linear arithmetic. *)
Ltac rdecide :=
  repeat (case_decide; try lra; try lia; try congruence);
  try lra; try lia.

(** ** Exceptions *)

Inductive exn : Type :=
  | ZeroDivisionError
  | ValueError
  | TypeError
  | AttributeError
  | AssertionError.

Inductive result (A : Type) : Type :=
  | Ok (a : A)
  | Raise (e : exn).

Arguments Ok {A} a.
Arguments Raise {A} e.

#[global] Instance result_ret : MRet result := fun A a => Ok a.
#[global] Instance result_bind : MBind result := fun A B k m =>
  match m with
  | Ok a => k a
  | Raise e => Raise e
  end.

(** [math.sqrt] raises [ValueError] on a negative argument. *)
Definition py_sqrt (x : R) : result R :=
  if decide (x < 0) then Raise ValueError else Ok (sqrt x).

(** True division raises [ZeroDivisionError] on a zero divisor. *)
Definition py_div (x y : R) : result R :=
  if decide (y = 0) then Raise ZeroDivisionError else Ok (x / y).

(** ** The easing catalogue *)

Module AnimationTransition.

Definition linear (progress : R) : R := progress.

Definition in_quad (progress : R) : R := progress * progress.

Definition out_quad (progress : R) : R :=
  -1.0 * progress * (progress - 2.0).

Definition in_out_quad (progress : R) : R :=
  let p := progress * 2 in
  if decide (p < 1) then 0.5 * p * p
  else
    let p := p - 1.0 in
    -0.5 * (p * (p - 2.0) - 1.0).

Definition in_cubic (progress : R) : R := progress * progress * progress.

Definition out_cubic (progress : R) : R :=
  let p := progress - 1.0 in
  p * p * p + 1.0.

Definition in_out_cubic (progress : R) : R :=
  let p := progress * 2 in
  if decide (p < 1) then 0.5 * p * p * p
  else
    let p := p - 2 in
    0.5 * (p * p * p + 2.0).

Definition in_quart (progress : R) : R :=
  progress * progress * progress * progress.

Definition out_quart (progress : R) : R :=
  let p := progress - 1.0 in
  -1.0 * (p * p * p * p - 1.0).

Definition in_out_quart (progress : R) : R :=
  let p := progress * 2 in
  if decide (p < 1) then 0.5 * p * p * p * p
  else
    let p := p - 2 in
    -0.5 * (p * p * p * p - 2.0).

Definition in_quint (progress : R) : R :=
  progress * progress * progress * progress * progress.

Definition out_quint (progress : R) : R :=
  let p := progress - 1.0 in
  p * p * p * p * p + 1.0.

Definition in_out_quint (progress : R) : R :=
  let p := progress * 2 in
  if decide (p < 1) then 0.5 * p * p * p * p * p
  else
    let p := p - 2.0 in
    0.5 * (p * p * p * p * p + 2.0).

Definition in_sine (progress : R) : R :=
  -1.0 * cos (progress * (PI / 2.0)) + 1.0.

Definition out_sine (progress : R) : R := sin (progress * (PI / 2.0)).

Definition in_out_sine (progress : R) : R :=
  -0.5 * (cos (PI * progress) - 1.0).

Definition in_expo (progress : R) : R :=
  if decide (progress = 0) then 0.0
  else Rpower 2 (10 * (progress - 1.0)).

Definition out_expo (progress : R) : R :=
  if decide (progress = 1.0) then 1.0
  else - Rpower 2 (-10 * progress) + 1.0.

Definition in_out_expo (progress : R) : R :=
  if decide (progress = 0) then 0.0
  else if decide (progress = 1) then 1.0
  else
    let p := progress * 2 in
    if decide (p < 1) then 0.5 * Rpower 2 (10 * (p - 1.0))
    else
      let p := p - 1.0 in
      0.5 * (- Rpower 2 (-10 * p) + 2.0).

Definition in_circ (progress : R) : result R :=
  r ← py_sqrt (1.0 - progress * progress);
  mret (-1.0 * (r - 1.0)).

Definition out_circ (progress : R) : result R :=
  let p := progress - 1.0 in
  py_sqrt (1.0 - p * p).

Definition in_out_circ (progress : R) : result R :=
  let p := progress * 2 in
  if decide (p < 1) then
    r ← py_sqrt (1.0 - p * p);
    mret (-0.5 * (r - 1.0))
  else
    let p := p - 2.0 in
    r ← py_sqrt (1.0 - p * p);
    mret (0.5 * (r + 1.0)).

Definition in_elastic (progress : R) : R :=
  let p := 0.3 in
  let s := p / 4.0 in
  let q := progress in
  if decide (q = 1) then 1.0
  else
    let q := q - 1.0 in
    - (Rpower 2 (10 * q) * sin ((q - s) * (2 * PI) / p)).

Definition out_elastic (progress : R) : R :=
  let p := 0.3 in
  let s := p / 4.0 in
  let q := progress in
  if decide (q = 1) then 1.0
  else Rpower 2 (-10 * q) * sin ((q - s) * (2 * PI) / p) + 1.0.

Definition in_out_elastic (progress : R) : R :=
  let p := 0.3 * 1.5 in
  let s := p / 4.0 in
  let q := progress * 2 in
  if decide (q = 2) then 1.0
  else if decide (q < 1) then
    let q := q - 1.0 in
    -0.5 * (Rpower 2 (10 * q) * sin ((q - s) * (2.0 * PI) / p))
  else
    let q := q - 1.0 in
    Rpower 2 (-10 * q) * sin ((q - s) * (2.0 * PI) / p) * 0.5 + 1.0.

Definition in_back (progress : R) : R :=
  progress * progress * ((1.70158 + 1.0) * progress - 1.70158).

Definition out_back (progress : R) : R :=
  let p := progress - 1.0 in
  p * p * ((1.70158 + 1) * p + 1.70158) + 1.0.

Definition in_out_back (progress : R) : R :=
  let p := progress * 2.0 in
  let s := 1.70158 * 1.525 in
  if decide (p < 1) then 0.5 * (p * p * ((s + 1.0) * p - s))
  else
    let p := p - 2.0 in
    0.5 * (p * p * ((s + 1.0) * p + s) + 2.0).

Definition _out_bounce_internal (t d : R) : result R :=
  p ← py_div t d;
  if decide (p < 1.0 / 2.75) then
    mret (7.5625 * p * p)
  else if decide (p < 2.0 / 2.75) then
    let p := p - 1.5 / 2.75 in
    mret (7.5625 * p * p + 0.75)
  else if decide (p < 2.5 / 2.75) then
    let p := p - 2.25 / 2.75 in
    mret (7.5625 * p * p + 0.9375)
  else
    let p := p - 2.625 / 2.75 in
    mret (7.5625 * p * p + 0.984375).

Definition _in_bounce_internal (t d : R) : result R :=
  r ← _out_bounce_internal (d - t) d;
  mret (1.0 - r).

Definition in_bounce (progress : R) : result R :=
  _in_bounce_internal progress 1.0.

Definition out_bounce (progress : R) : result R :=
  _out_bounce_internal progress 1.0.

Definition in_out_bounce (progress : R) : result R :=
  let p := progress * 2.0 in
  if decide (p < 1.0) then
    r ← _in_bounce_internal p 1.0;
    mret (r * 0.5)
  else
    r ← _out_bounce_internal (p - 1.0) 1.0;
    mret (r * 0.5 + 0.5).

End AnimationTransition.

(** The public static methods of [AnimationTransition], as an enumeration. *)
Inductive easing : Type :=
  | Linear
  | InQuad | OutQuad | InOutQuad
  | InCubic | OutCubic | InOutCubic
  | InQuart | OutQuart | InOutQuart
  | InQuint | OutQuint | InOutQuint
  | InSine | OutSine | InOutSine
  | InExpo | OutExpo | InOutExpo
  | InCirc | OutCirc | InOutCirc
  | InElastic | OutElastic | InOutElastic
  | InBack | OutBack | InOutBack
  | InBounce | OutBounce | InOutBounce.

#[global] Instance easing_eq_dec : EqDecision easing.
Proof. solve_decision. Defined.

Definition catalog : list easing :=
  [ Linear;
    InQuad; OutQuad; InOutQuad;
    InCubic; OutCubic; InOutCubic;
    InQuart; OutQuart; InOutQuart;
    InQuint; OutQuint; InOutQuint;
    InSine; OutSine; InOutSine;
    InExpo; OutExpo; InOutExpo;
    InCirc; OutCirc; InOutCirc;
    InElastic; OutElastic; InOutElastic;
    InBack; OutBack; InOutBack;
    InBounce; OutBounce; InOutBounce ].

Definition easing_name (e : easing) : string :=
  match e with
  | Linear => "linear"
  | InQuad => "in_quad" | OutQuad => "out_quad" | InOutQuad => "in_out_quad"
  | InCubic => "in_cubic" | OutCubic => "out_cubic"
  | InOutCubic => "in_out_cubic"
  | InQuart => "in_quart" | OutQuart => "out_quart"
  | InOutQuart => "in_out_quart"
  | InQuint => "in_quint" | OutQuint => "out_quint"
  | InOutQuint => "in_out_quint"
  | InSine => "in_sine" | OutSine => "out_sine" | InOutSine => "in_out_sine"
  | InExpo => "in_expo" | OutExpo => "out_expo" | InOutExpo => "in_out_expo"
  | InCirc => "in_circ" | OutCirc => "out_circ" | InOutCirc => "in_out_circ"
  | InElastic => "in_elastic" | OutElastic => "out_elastic"
  | InOutElastic => "in_out_elastic"
  | InBack => "in_back" | OutBack => "out_back" | InOutBack => "in_out_back"
  | InBounce => "in_bounce" | OutBounce => "out_bounce"
  | InOutBounce => "in_out_bounce"
  end.

(** Calling a catalogue entry: the curves that cannot raise are wrapped in
    [Ok]. *)
Definition easing_fn (e : easing) (progress : R) : result R :=
  match e with
  | Linear => Ok (AnimationTransition.linear progress)
  | InQuad => Ok (AnimationTransition.in_quad progress)
  | OutQuad => Ok (AnimationTransition.out_quad progress)
  | InOutQuad => Ok (AnimationTransition.in_out_quad progress)
  | InCubic => Ok (AnimationTransition.in_cubic progress)
  | OutCubic => Ok (AnimationTransition.out_cubic progress)
  | InOutCubic => Ok (AnimationTransition.in_out_cubic progress)
  | InQuart => Ok (AnimationTransition.in_quart progress)
  | OutQuart => Ok (AnimationTransition.out_quart progress)
  | InOutQuart => Ok (AnimationTransition.in_out_quart progress)
  | InQuint => Ok (AnimationTransition.in_quint progress)
  | OutQuint => Ok (AnimationTransition.out_quint progress)
  | InOutQuint => Ok (AnimationTransition.in_out_quint progress)
  | InSine => Ok (AnimationTransition.in_sine progress)
  | OutSine => Ok (AnimationTransition.out_sine progress)
  | InOutSine => Ok (AnimationTransition.in_out_sine progress)
  | InExpo => Ok (AnimationTransition.in_expo progress)
  | OutExpo => Ok (AnimationTransition.out_expo progress)
  | InOutExpo => Ok (AnimationTransition.in_out_expo progress)
  | InCirc => AnimationTransition.in_circ progress
  | OutCirc => AnimationTransition.out_circ progress
  | InOutCirc => AnimationTransition.in_out_circ progress
  | InElastic => Ok (AnimationTransition.in_elastic progress)
  | OutElastic => Ok (AnimationTransition.out_elastic progress)
  | InOutElastic => Ok (AnimationTransition.in_out_elastic progress)
  | InBack => Ok (AnimationTransition.in_back progress)
  | OutBack => Ok (AnimationTransition.out_back progress)
  | InOutBack => Ok (AnimationTransition.in_out_back progress)
  | InBounce => AnimationTransition.in_bounce progress
  | OutBounce => AnimationTransition.out_bounce progress
  | InOutBounce => AnimationTransition.in_out_bounce progress
  end.

(** [getattr(AnimationTransition, name)] for the name of an easing curve.
    Only the public curves are selectable here; any other name is reported
    as a missing attribute. *)
Definition transition_by_name (name : string) : result easing :=
  match List.find (fun e => bool_decide (easing_name e = name)) catalog with
  | Some e => Ok e
  | None => Raise AttributeError
  end.

(** ** The environment: object identities, sprites, callbacks, the heap *)

(** Object identity. *)
Definition ref : Type := positive.

(** An argument that is expected to be a callable. *)
Inductive pyobj : Type :=
  | Function (f : ref)
  | NotCallable.

Definition callable (o : pyobj) : bool :=
  match o with Function _ => true | NotCallable => false end.

(** One invocation of a callback, with its positional and keyword
    arguments. *)
Inductive event : Type :=
  | Call (f : ref) (args : list R) (kwargs : list (string * R)).

(** The numeric attributes of the objects an animation may target. *)
Definition getattr (h : gmap ref (gmap string R)) (o : ref) (name : string)
  : result R :=
  match h !! o ≫= (fun attrs => attrs !! name) with
  | Some v => Ok v
  | None => Raise AttributeError
  end.

Definition setattr (h : gmap ref (gmap string R)) (o : ref) (name : string)
  (value : R) : gmap ref (gmap string R) :=
  alter (fun attrs => <[name := value]> attrs) o h.

(** Everything outside [self] that a method can change: the attributes of
    the targets and the sequence of callback invocations, latest first. *)
Record world : Type := World {
  heap : gmap ref (gmap string R);
  trace : list event
}.

Definition invoke (w : world) (f : ref) (args : list R)
  (kwargs : list (string * R)) : world :=
  World (heap w) (Call f args kwargs :: trace w).

(** Number of callback invocations recorded so far. *)
Definition calls (w : world) : nat := length (trace w).

(** A Python [dict] with string keys, in insertion order.  Assigning to an
    existing key keeps its position. *)
Fixpoint dict_set {V : Type} (d : list (string * V)) (k : string) (v : V)
  : list (string * V) :=
  match d with
  | [] => [(k, v)]
  | (k', v') :: d' =>
      if decide (k' = k) then (k, v) :: d' else (k', v') :: dict_set d' k v
  end.

(** [int(round(value, 0))]: Python 3 rounds halves to the even neighbour. *)
Definition py_round (x : R) : Z :=
  let n := Int_part x in
  let d := frac_part x in
  if decide (d < 0.5) then n
  else if decide (0.5 < d) then (n + 1)%Z
  else if Z.even n then n else (n + 1)%Z.

(** ** Task *)

Module Task.

(** [groups] is the part of [pygame.sprite.Sprite] the class relies on:
    the sprite groups the task currently belongs to.  [kill()] removes the
    sprite from all of them. *)
Record t : Type := mk {
  interval : R;
  loops : Z;
  callback : ref;
  _timer : R;
  _args : list R;
  _kwargs : list (string * R);
  _loops : Z;
  groups : gset ref
}.

Definition kill (self : t) : t :=
  mk (interval self) (loops self) (callback self) (_timer self)
     (_args self) (_kwargs self) (_loops self) ∅.

Definition add (self : t) (g : ref) : t :=
  mk (interval self) (loops self) (callback self) (_timer self)
     (_args self) (_kwargs self) (_loops self) ({[ g ]} ∪ groups self).

Definition alive (self : t) : bool := bool_decide (groups self ≠ ∅).

Definition __init__ (callback : pyobj) (interval : R) (loops : Z)
  (args : option (list R)) (kwargs : option (list (string * R)))
  : result t :=
  match callback with
  | NotCallable => Raise AssertionError
  | Function f =>
      if decide (loops >= -1)%Z then
        Ok (mk interval loops f 0
              (match args with Some (x :: l) => x :: l | _ => [] end)
              (match kwargs with Some (x :: l) => x :: l | _ => [] end)
              loops ∅)
      else Raise AssertionError
  end.

(** The defaults of the signature: [interval=0, loops=1, args=None,
    kwargs=None]. *)
Definition default_interval : R := 0.
Definition default_loops : Z := 1.

Definition update (self : t) (w : world) (delta : R) : t * world :=
  let timer := _timer self + delta in
  if decide (timer >= interval self) then
    let timer := timer - interval self in
    let w := invoke w (callback self) (_args self) (_kwargs self) in
    if decide (_loops self = -1)%Z then
      (mk (interval self) (loops self) (callback self) timer
          (_args self) (_kwargs self) (_loops self) (groups self), w)
    else
      let n := (_loops self - 1)%Z in
      let self := mk (interval self) (loops self) (callback self) timer
                     (_args self) (_kwargs self) n (groups self) in
      if decide (n <= 0)%Z then (kill self, w) else (self, w)
  else
    (mk (interval self) (loops self) (callback self) timer
        (_args self) (_kwargs self) (_loops self) (groups self), w).

(** Successive calls [update(d1); update(d2); ...] on the same task. *)
Fixpoint updates (self : t) (w : world) (deltas : list R) : t * world :=
  match deltas with
  | [] => (self, w)
  | delta :: rest =>
      let '(self, w) := update self w delta in
      updates self w rest
  end.

(** [pygame.sprite.Group.update], seen from one sprite: the group [g]
    forwards the call to the sprites that belong to it. *)
Definition group_update (g : ref) (self : t) (w : world) (delta : R)
  : t * world :=
  if decide (g ∈ groups self) then update self w delta else (self, w).

Fixpoint group_updates (g : ref) (self : t) (w : world) (deltas : list R)
  : t * world :=
  match deltas with
  | [] => (self, w)
  | delta :: rest =>
      let '(self, w) := group_update g self w delta in
      group_updates g self w rest
  end.

End Task.

(** ** Animation *)

Module Animation.

(** The [transition] keyword: the name of a curve or a function. *)
Inductive transition_arg : Type :=
  | ByName (name : string)
  | ByFunction (f : R -> result R).

(** The keyword arguments of the constructor: the four recognised options,
    each possibly absent, and the remaining keywords in call order. *)
Record kwargs : Type := Kwargs {
  kw_round_values : option bool;
  kw_duration : option R;
  kw_delay : option R;
  kw_transition : option transition_arg;
  kw_props : list (string * R)
}.

(** [_targets] is [None] or a list of pairs of a target and the dict of
    its captured (start, end) values.  [callback] is the optional instance
    attribute tested by [hasattr(self, 'callback')].  [groups] is as in
    [Task]. *)
Record t : Type := mk {
  _targets : option (list (ref * list (string * (R * R))));
  _started : bool;
  _round_values : bool;
  _duration : R;
  _delay : R;
  _transition : R -> result R;
  _elapsed : R;
  props : list (string * R);
  callback : option ref;
  groups : gset ref
}.

Definition set_targets (self : t)
  (v : option (list (ref * list (string * (R * R))))) : t :=
  mk v (_started self) (_round_values self) (_duration self) (_delay self)
     (_transition self) (_elapsed self) (props self) (callback self)
     (groups self).

Definition set_elapsed (self : t) (v : R) : t :=
  mk (_targets self) (_started self) (_round_values self) (_duration self)
     (_delay self) (_transition self) v (props self) (callback self)
     (groups self).

Definition set_callback (self : t) (f : ref) : t :=
  mk (_targets self) (_started self) (_round_values self) (_duration self)
     (_delay self) (_transition self) (_elapsed self) (props self) (Some f)
     (groups self).

Definition kill (self : t) : t :=
  mk (_targets self) (_started self) (_round_values self) (_duration self)
     (_delay self) (_transition self) (_elapsed self) (props self)
     (callback self) ∅.

Definition add (self : t) (g : ref) : t :=
  mk (_targets self) (_started self) (_round_values self) (_duration self)
     (_delay self) (_transition self) (_elapsed self) (props self)
     (callback self) ({[ g ]} ∪ groups self).

Definition __init__ (kw : kwargs) : result t :=
  transition ←
    match default (ByName "linear") (kw_transition kw) with
    | ByName name => e ← transition_by_name name; mret (easing_fn e)
    | ByFunction f => mret f
    end;
  mret (mk None false
           (default false (kw_round_values kw))
           (default 1000.0 (kw_duration kw))
           (default 0 (kw_delay kw))
           transition
           0.0
           (kw_props kw)
           None
           ∅).

(** The body of the inner loop of [update]. *)
Definition blend (round_values : bool) (t : R) (values : R * R) : R :=
  let '(a, b) := values in
  let value := a * (1.0 - t) + b * t in
  if round_values then IZR (py_round value) else value.

(** [for name, values in props.items(): ... setattr(target, name, value)] *)
Fixpoint write_props (round_values : bool) (t : R) (target : ref)
  (items : list (string * (R * R))) (h : gmap ref (gmap string R))
  : gmap ref (gmap string R) :=
  match items with
  | [] => h
  | (name, values) :: rest =>
      write_props round_values t target rest
        (setattr h target name (blend round_values t values))
  end.

(** [for target, props in self._targets: ...] *)
Fixpoint write_targets (round_values : bool) (t : R)
  (targets : list (ref * list (string * (R * R))))
  (h : gmap ref (gmap string R)) : gmap ref (gmap string R) :=
  match targets with
  | [] => h
  | (target, items) :: rest =>
      write_targets round_values t rest
        (write_props round_values t target items h)
  end.

Definition update (self : t) (w : world) (dt : R)
  : t * world * result unit :=
  let self := set_elapsed self (_elapsed self + dt) in
  if decide (_elapsed self < _delay self) then (self, w, Ok tt)
  else
    match py_div (_elapsed self) (_duration self) with
    | Raise e => (self, w, Raise e)
    | Ok q =>
        let p := Rmin 1.0 q in
        match _transition self p with
        | Raise e => (self, w, Raise e)
        | Ok t =>
            match _targets self with
            | None => (self, w, Raise TypeError)
            | Some targets =>
                let w :=
                  World (write_targets (_round_values self) t targets
                           (heap w))
                        (trace w) in
                if decide (p >= 1.0) then
                  let self := kill (set_targets self None) in
                  match callback self with
                  | Some f => (self, invoke w f [] [], Ok tt)
                  | None => (self, w, Ok tt)
                  end
                else (self, w, Ok tt)
            end
        end
    end.

(** The loop of [start] over the items of [self.props], filling the dict
    [d] of one target in place; it stops at the first attribute the target
    lacks. *)
Fixpoint capture (h : gmap ref (gmap string R)) (target : ref)
  (items : list (string * R)) (d : list (string * (R * R)))
  : list (string * (R * R)) * result unit :=
  match items with
  | [] => (d, Ok tt)
  | (name, value) :: rest =>
      match getattr h target name with
      | Ok current => capture h target rest (dict_set d name (current, value))
      | Raise e => (d, Raise e)
      end
  end.

(** The loop of [start] over [self._targets]. *)
Fixpoint capture_all (h : gmap ref (gmap string R))
  (items : list (string * R))
  (targets : list (ref * list (string * (R * R))))
  : list (ref * list (string * (R * R))) * result unit :=
  match targets with
  | [] => ([], Ok tt)
  | (target, d) :: rest =>
      match capture h target items d with
      | (d, Ok _) =>
          let '(rest, r) := capture_all h items rest in
          ((target, d) :: rest, r)
      | (d, Raise e) => ((target, d) :: rest, Raise e)
      end
  end.

Definition start (self : t) (w : world) (sprite : ref)
  : t * result unit :=
  let '(targets, r) := capture_all (heap w) (props self) [(sprite, [])] in
  (set_targets self (Some targets), r).

(** Successive calls [update(d1); update(d2); ...] on the same animation
    by a caller that goes on after an exception. *)
Fixpoint updates (self : t) (w : world) (dts : list R) : t * world :=
  match dts with
  | [] => (self, w)
  | dt :: rest =>
      let '(self, w, _) := update self w dt in
      updates self w rest
  end.

(** The targets currently bound to the animation. *)
Definition bound (self : t) : list ref :=
  match _targets self with
  | None => []
  | Some targets => List.map fst targets
  end.

End Animation.

(** ** Stating facts about results *)

(** [on_ok r P]: the computation [r] returned normally and its value
    satisfies [P]. *)
Definition on_ok {A : Type} (r : result A) (P : A -> Prop) : Prop :=
  match r with
  | Ok a => P a
  | Raise _ => False
  end.

(** * Properties *)

(** ** Boundary values of the easing curves *)

Section EasingBoundaries.

Import AnimationTransition.

Lemma py_sqrt_nonneg (x : R) : 0 <= x -> py_sqrt x = Ok (sqrt x).
Proof. intros Hx. unfold py_sqrt. rdecide; reflexivity. Qed.

Lemma py_div_1 (x : R) : py_div x 1.0 = Ok x.
Proof. unfold py_div. rdecide. f_equal. lra. Qed.

Lemma Rpower_2_0 (x : R) : x = 0 -> Rpower 2 x = 1.
Proof. intros ->. apply Rpower_O. lra. Qed.

Lemma Rpower_2_minus_10 (x : R) : x = -10 -> Rpower 2 x = / 1024.
Proof.
  intros ->. replace (-10) with (- INR 10) by (simpl; lra).
  rewrite Rpower_Ropp, Rpower_pow by lra. f_equal. simpl. lra.
Qed.

Lemma sin_7PI6 : sin (7 * PI / 6) = - (1 / 2).
Proof.
  replace (7 * PI / 6) with (PI / 6 + PI) by field.
  rewrite neg_sin, sin_PI6. reflexivity.
Qed.

Lemma sin_minus_43PI6 (x : R) : x = - (43 * PI / 6) -> sin x = 1 / 2.
Proof.
  intros ->. rewrite sin_neg.
  replace (43 * PI / 6) with (7 * PI / 6 + 2 * INR 3 * PI) by (simpl; field).
  rewrite sin_period, sin_7PI6. lra.
Qed.

Lemma sin_minus_89PI18 (x : R) :
  x = - (89 * PI / 18) -> sin x = - sin (PI / 18).
Proof.
  intros ->. rewrite sin_neg. f_equal.
  replace (89 * PI / 18) with (17 * PI / 18 + 2 * INR 2 * PI)
    by (simpl; field).
  rewrite sin_period.
  replace (17 * PI / 18) with (PI - PI / 18) by field.
  apply sin_PI_x.
Qed.

Lemma sin_minus_PI2 (x : R) : x = - (PI / 2) -> sin x = -1.
Proof. intros ->. rewrite sin_neg, sin_PI2. lra. Qed.

Lemma sin_PI18_pos : 0 < sin (PI / 18).
Proof. pose proof PI_RGT_0. apply sin_gt_0; lra. Qed.

(** The polynomial families. *)

Lemma linear_bounds : linear 0 = 0 /\ linear 1 = 1.
Proof. unfold linear. split; reflexivity. Qed.

Lemma quad_bounds :
  (in_quad 0 = 0 /\ in_quad 1 = 1) /\
  (out_quad 0 = 0 /\ out_quad 1 = 1) /\
  (in_out_quad 0 = 0 /\ in_out_quad 1 = 1).
Proof.
  unfold in_quad, out_quad, in_out_quad. repeat split; rdecide.
Qed.

Lemma cubic_bounds :
  (in_cubic 0 = 0 /\ in_cubic 1 = 1) /\
  (out_cubic 0 = 0 /\ out_cubic 1 = 1) /\
  (in_out_cubic 0 = 0 /\ in_out_cubic 1 = 1).
Proof.
  unfold in_cubic, out_cubic, in_out_cubic. repeat split; rdecide.
Qed.

Lemma quart_bounds :
  (in_quart 0 = 0 /\ in_quart 1 = 1) /\
  (out_quart 0 = 0 /\ out_quart 1 = 1) /\
  (in_out_quart 0 = 0 /\ in_out_quart 1 = 1).
Proof.
  unfold in_quart, out_quart, in_out_quart. repeat split; rdecide.
Qed.

Lemma quint_bounds :
  (in_quint 0 = 0 /\ in_quint 1 = 1) /\
  (out_quint 0 = 0 /\ out_quint 1 = 1) /\
  (in_out_quint 0 = 0 /\ in_out_quint 1 = 1).
Proof.
  unfold in_quint, out_quint, in_out_quint. repeat split; rdecide.
Qed.

Lemma back_bounds :
  (in_back 0 = 0 /\ in_back 1 = 1) /\
  (out_back 0 = 0 /\ out_back 1 = 1) /\
  (in_out_back 0 = 0 /\ in_out_back 1 = 1).
Proof.
  unfold in_back, out_back, in_out_back. repeat split; rdecide.
Qed.

(** The trigonometric family. *)

Lemma sine_bounds :
  (in_sine 0 = 0 /\ in_sine 1 = 1) /\
  (out_sine 0 = 0 /\ out_sine 1 = 1) /\
  (in_out_sine 0 = 0 /\ in_out_sine 1 = 1).
Proof.
  unfold in_sine, out_sine, in_out_sine.
  replace (0 * (PI / 2.0)) with 0 by lra.
  replace (1 * (PI / 2.0)) with (PI / 2) by lra.
  replace (PI * 0) with 0 by lra.
  replace (PI * 1) with PI by lra.
  rewrite cos_0, sin_0, cos_PI2, sin_PI2, cos_PI.
  repeat split; lra.
Qed.

(** The exponential family: the guards give the value at one end, the
    formula gives it at the other. *)

Lemma expo_bounds :
  (in_expo 0 = 0 /\ in_expo 1 = 1) /\
  (out_expo 0 = 0 /\ out_expo 1 = 1) /\
  (in_out_expo 0 = 0 /\ in_out_expo 1 = 1).
Proof.
  unfold in_expo, out_expo, in_out_expo.
  repeat split; rdecide.
  - apply Rpower_2_0. lra.
  - rewrite Rpower_2_0; lra.
Qed.

(** The circular family. *)

Lemma circ_bounds :
  (in_circ 0 = Ok 0 /\ in_circ 1 = Ok 1) /\
  (out_circ 0 = Ok 0 /\ out_circ 1 = Ok 1) /\
  (in_out_circ 0 = Ok 0 /\ in_out_circ 1 = Ok 1).
Proof.
  unfold in_circ, out_circ, in_out_circ.
  repeat split; rdecide;
    rewrite py_sqrt_nonneg by lra; cbn; f_equal;
    match goal with
    | |- context [sqrt ?x] =>
        first [ replace x with 0 by lra; rewrite sqrt_0
              | replace x with 1 by lra; rewrite sqrt_1 ]
    end; lra.
Qed.

(** The bounce family. *)

Lemma out_bounce_internal_0 : _out_bounce_internal 0 1.0 = Ok 0.
Proof.
  unfold _out_bounce_internal. rewrite py_div_1. cbn.
  rdecide; f_equal; lra.
Qed.

Lemma out_bounce_internal_1 : _out_bounce_internal 1 1.0 = Ok 1.
Proof.
  unfold _out_bounce_internal. rewrite py_div_1. cbn.
  rdecide; f_equal; lra.
Qed.

Lemma bounce_bounds :
  (in_bounce 0 = Ok 0 /\ in_bounce 1 = Ok 1) /\
  (out_bounce 0 = Ok 0 /\ out_bounce 1 = Ok 1) /\
  (in_out_bounce 0 = Ok 0 /\ in_out_bounce 1 = Ok 1).
Proof.
  unfold in_bounce, out_bounce, in_out_bounce, _in_bounce_internal.
  repeat split; rdecide.
  - replace (1.0 - 0) with 1 by lra.
    rewrite out_bounce_internal_1. cbn. f_equal. lra.
  - replace (1.0 - 1) with 0 by lra.
    rewrite out_bounce_internal_0. cbn. f_equal. lra.
  - apply out_bounce_internal_0.
  - apply out_bounce_internal_1.
  - replace (1.0 - 0 * 2.0) with 1 by lra.
    rewrite out_bounce_internal_1. cbn. f_equal. lra.
  - replace (1 * 2.0 - 1.0) with 1 by lra.
    rewrite out_bounce_internal_1. cbn. f_equal. lra.
Qed.

(** The elastic family: only progress 1 is guarded.  At progress 0 the
    damped sinusoid is evaluated; it vanishes for [out_elastic] only. *)

Lemma in_elastic_0 : in_elastic 0 = - (1 / 2048).
Proof.
  unfold in_elastic. rdecide.
  rewrite Rpower_2_minus_10 by lra.
  rewrite sin_minus_43PI6 by lra.
  lra.
Qed.

Lemma in_out_elastic_0 : in_out_elastic 0 = sin (PI / 18) / 2048.
Proof.
  unfold in_out_elastic. rdecide.
  rewrite Rpower_2_minus_10 by lra.
  rewrite sin_minus_89PI18 by lra.
  lra.
Qed.

Lemma out_elastic_0 : out_elastic 0 = 0.
Proof.
  unfold out_elastic. rdecide.
  rewrite Rpower_2_0 by lra.
  rewrite sin_minus_PI2 by lra.
  lra.
Qed.

Lemma elastic_at_1 :
  in_elastic 1 = 1 /\ out_elastic 1 = 1 /\ in_out_elastic 1 = 1.
Proof.
  unfold in_elastic, out_elastic, in_out_elastic. repeat split; rdecide.
Qed.

End EasingBoundaries.

(** C5, as the code has it: every curve of the catalogue maps progress 1 to
    exactly 1, and maps progress 0 to exactly 0 except [in_elastic] and
    [in_out_elastic], which have no guard at 0 and return the value of the
    damped sinusoid there: -1/2048 and sin(pi/18)/2048. *)
Theorem easing_boundary_values (e : easing) :
  easing_fn e 1 = Ok 1 /\
  easing_fn e 0 = Ok (match e with
                      | InElastic => - (1 / 2048)
                      | InOutElastic => sin (PI / 18) / 2048
                      | _ => 0
                      end).
Proof.
  pose proof linear_bounds. pose proof quad_bounds. pose proof cubic_bounds.
  pose proof quart_bounds. pose proof quint_bounds. pose proof sine_bounds.
  pose proof expo_bounds. pose proof circ_bounds. pose proof back_bounds.
  pose proof bounce_bounds. pose proof elastic_at_1.
  pose proof in_elastic_0. pose proof in_out_elastic_0.
  pose proof out_elastic_0.
  destruct e; cbn [easing_fn]; split; first [ tauto | f_equal; tauto ].
Qed.

(** C5 fails as stated: [in_elastic], a curve of the catalogue, does not map
    progress 0 to 0. *)
Lemma in_elastic_nonzero_at_0 :
  InElastic ∈ catalog /\ easing_fn InElastic 0 <> Ok 0.
Proof.
  split.
  - unfold catalog. set_solver.
  - cbn [easing_fn]. rewrite in_elastic_0. intros [=]. lra.
Qed.

(** ** Task *)

Section TaskProperties.

Implicit Types (self : Task.t) (w : world) (delta : R).

(** What one call does to the task's own fields, whatever the branch. *)
Lemma task_update_frame self w delta :
  Task.interval (Task.update self w delta).1 = Task.interval self /\
  Task.callback (Task.update self w delta).1 = Task.callback self /\
  Task._args (Task.update self w delta).1 = Task._args self /\
  Task._kwargs (Task.update self w delta).1 = Task._kwargs self /\
  heap (Task.update self w delta).2 = heap w.
Proof.
  unfold Task.update. repeat case_decide; cbn; auto.
Qed.

(** [update] has no loop: a call invokes the callback at most once, and
    does so exactly when the advanced timer has reached the interval. *)
Lemma task_update_fires self w delta :
  Task._timer self + delta >= Task.interval self ->
  trace (Task.update self w delta).2 =
    Call (Task.callback self) (Task._args self) (Task._kwargs self)
      :: trace w.
Proof.
  intros Hge. unfold Task.update. repeat case_decide; cbn; auto; lra.
Qed.

Lemma task_update_silent self w delta :
  Task._timer self + delta < Task.interval self ->
  Task.update self w delta =
    (Task.mk (Task.interval self) (Task.loops self) (Task.callback self)
       (Task._timer self + delta) (Task._args self) (Task._kwargs self)
       (Task._loops self) (Task.groups self), w).
Proof.
  intros Hlt. unfold Task.update. repeat case_decide; cbn; auto; lra.
Qed.

(** An endless task ([_loops = -1]) is never decremented nor killed. *)
Lemma task_update_endless self w delta :
  Task._loops self = (-1)%Z ->
  Task._loops (Task.update self w delta).1 = (-1)%Z /\
  Task.groups (Task.update self w delta).1 = Task.groups self.
Proof.
  intros Hl. unfold Task.update. repeat case_decide; cbn; auto; lia.
Qed.

(** With a zero interval the timer never becomes negative under
    non-negative steps, so the firing test always succeeds. *)
Lemma task_zero_interval_step self w delta :
  Task.interval self = 0 -> 0 <= Task._timer self -> 0 <= delta ->
  0 <= Task._timer (Task.update self w delta).1 /\
  calls (Task.update self w delta).2 = S (calls w).
Proof.
  intros Hi Ht Hd. split.
  - unfold Task.update. repeat case_decide; cbn; lra.
  - unfold calls. rewrite task_update_fires by lra. reflexivity.
Qed.

Lemma task_zero_interval_run (deltas : list R) : forall self w,
  Task.interval self = 0 -> Task._loops self = (-1)%Z ->
  0 <= Task._timer self -> Forall (fun d => 0 <= d) deltas ->
  let r := Task.updates self w deltas in
  Task.interval r.1 = 0 /\ Task._loops r.1 = (-1)%Z /\
  0 <= Task._timer r.1 /\ Task.groups r.1 = Task.groups self /\
  calls r.2 = (length deltas + calls w)%nat.
Proof.
  induction deltas as [|d deltas IH]; intros self w Hi Hl Ht Hall; cbn.
  - auto.
  - inversion Hall as [|? ? Hd Hrest]; subst.
    destruct (task_zero_interval_step self w d Hi Ht Hd) as [Ht' Hc].
    destruct (task_update_endless self w d Hl) as [Hl' Hg].
    destruct (task_update_frame self w d) as (Hi' & _).
    destruct (Task.update self w d) as [self' w'] eqn:E. cbn in *.
    destruct (IH self' w') as (? & ? & ? & ? & ?); try congruence.
    repeat split; try congruence. lia.
Qed.

End TaskProperties.

(** C10: a task built with the default interval 0 and [loops = -1] invokes
    its callback exactly once in every call [update(dt)] with [dt >= 0]
    (zero included), however many such calls came before, and is never
    killed. *)
Theorem task_zero_interval_fires_every_update
  (f : ref) (args : option (list R)) (kwargs : option (list (string * R)))
  (task : Task.t) (w : world) (deltas : list R) (dt : R) :
  Task.__init__ (Function f) Task.default_interval (-1) args kwargs = Ok task ->
  Forall (fun d => 0 <= d) deltas ->
  0 <= dt ->
  let before := Task.updates task w deltas in
  let after := Task.update before.1 before.2 dt in
  trace after.2 =
    Call f (Task._args task) (Task._kwargs task) :: trace before.2 /\
  calls after.2 = S (calls before.2) /\
  calls before.2 = (length deltas + calls w)%nat /\
  Task.groups after.1 = Task.groups task.
Proof.
  intros Hinit Hall Hdt. cbn in Hinit.
  destruct (decide (-1 >= -1)%Z); [|lia]. injection Hinit as <-.
  set (task := Task.mk _ _ _ _ _ _ _ _).
  destruct (task_zero_interval_run deltas task w eq_refl eq_refl
              (Rle_refl 0) Hall) as (Hi & Hl & Ht & Hg & Hc).
  cbn zeta.
  assert (Hfr : forall l self w0, 
    Task.callback (Task.updates self w0 l).1 = Task.callback self /\
    Task._args (Task.updates self w0 l).1 = Task._args self /\
    Task._kwargs (Task.updates self w0 l).1 = Task._kwargs self).
  { induction l as [|d l IH]; intros self w0; cbn; [auto|].
    pose proof (task_update_frame self w0 d) as (_ & Hcb & Ha & Hk & _).
    destruct (Task.update self w0 d) as [s' w']. cbn in *.
    destruct (IH s' w') as (-> & -> & ->). auto. }
  destruct (Hfr deltas task w) as (Hcb & Ha & Hk).
  destruct (task_zero_interval_step _ (Task.updates task w deltas).2 dt Hi Ht Hdt)
    as [_ Hcalls].
  destruct (task_update_endless _ (Task.updates task w deltas).2 dt Hl)
    as [_ Hgr].
  repeat split.
  - rewrite task_update_fires by (rewrite Hi; lra).
    rewrite Hcb, Ha, Hk. reflexivity.
  - exact Hcalls.
  - exact Hc.
  - rewrite Hgr. exact Hg.
Qed.

(** C10 at a concrete task: three earlier calls, then [update(0)]. *)
Lemma task_zero_interval_fires_every_update_witness :
  let task := Task.mk 0 (-1) 5%positive 0 [] [] (-1) ∅ in
  let before := Task.updates task (World ∅ []) [0; 16; 0.5] in
  let after := Task.update before.1 before.2 0 in
  trace after.2 = Call 5%positive [] [] :: trace before.2 /\
  calls after.2 = S (calls before.2) /\
  calls before.2 = (3 + 0)%nat /\
  Task.groups after.1 = ∅.
Proof.
  apply (task_zero_interval_fires_every_update 5%positive None None
           (Task.mk 0 (-1) 5%positive 0 [] [] (-1) ∅) (World ∅ [])
           [0; 16; 0.5] 0).
  - cbn. destruct (decide (-1 >= -1)%Z); [reflexivity | lia].
  - repeat constructor; lra.
  - lra.
Defined.

(** A call that fires on a task with a finite number of loops left. *)
Lemma task_update_fire_finite (self : Task.t) (w : world) (delta : R) :
  Task._timer self + delta >= Task.interval self ->
  Task._loops self <> (-1)%Z ->
  let self' :=
    Task.mk (Task.interval self) (Task.loops self) (Task.callback self)
      (Task._timer self + delta - Task.interval self) (Task._args self)
      (Task._kwargs self) (Task._loops self - 1) (Task.groups self) in
  Task.update self w delta =
    (if decide (Task._loops self - 1 <= 0)%Z then Task.kill self' else self',
     invoke w (Task.callback self) (Task._args self) (Task._kwargs self)).
Proof.
  intros Hge Hl. unfold Task.update.
  repeat case_decide; try lra; try lia; reflexivity.
Qed.

(** Projections of an explicit task record. *)
Ltac task_fields :=
  cbn [Task.interval Task.loops Task.callback Task._timer Task._args
       Task._kwargs Task._loops Task.groups fst snd].

(** Step through a firing call on explicit numbers. *)
Ltac task_fire :=
  rewrite task_update_fire_finite by (task_fields; first [lra | lia]);
  task_fields.

(** C7, as the code has it: for a task built with [loops=2] and
    [interval=100] (here a member of a sprite group [g]), each of the first
    two calls [update(100)] invokes the callback exactly once; the task is
    still in its group after the first call and is killed, i.e. removed from
    every group, by the second, so that the group forwards no further call.
    [update] itself does not test whether the task was killed: a third
    direct call [update(100)] invokes the callback a third time. *)
Theorem task_two_loops_then_killed
  (f : ref) (args : option (list R)) (kwargs : option (list (string * R)))
  (g : ref) (w : world) :
  on_ok (Task.__init__ (Function f) 100 2 args kwargs) (fun task =>
    let task := Task.add task g in
    let s1 := Task.update task w 100 in
    let s2 := Task.update s1.1 s1.2 100 in
    let s3 := Task.update s2.1 s2.2 100 in
    calls s1.2 = (1 + calls w)%nat /\
    calls s2.2 = (2 + calls w)%nat /\
    Task.groups s1.1 = Task.groups task /\
    Task.groups s2.1 = ∅ /\
    Task.group_update g s2.1 s2.2 100 = s2 /\
    calls s3.2 = (3 + calls w)%nat).
Proof.
  unfold Task.__init__. destruct (decide (2 >= -1)%Z); [|lia].
  unfold on_ok. cbn zeta.
  set (a := match args with Some (x :: l) => x :: l | _ => [] end).
  set (k := match kwargs with Some (x :: l) => x :: l | _ => [] end).
  unfold Task.add. task_fields.
  task_fire.
  task_fields.
  destruct (decide (2 - 1 <= 0)%Z); [lia|].
  task_fields.
  task_fire.
  task_fields.
  destruct (decide (2 - 1 - 1 <= 0)%Z); [|lia].
  unfold Task.kill.
  task_fields.
  task_fire.
  task_fields.
  unfold Task.group_update.
  task_fields.
  destruct (decide (g ∈ (∅ : gset ref))) as [Hin|_]; [set_solver|].
  unfold calls, invoke. cbn [trace length].
  repeat split; reflexivity.
Qed.

(** C7 fails as stated: after the two calls that use up both loops, a third
    call [update(100)] does invoke the callback again. *)
Lemma task_third_update_fires_again :
  on_ok (Task.__init__ (Function 1%positive) 100 2 None None) (fun task =>
    let s2 := Task.updates task (World ∅ []) [100; 100] in
    let s3 := Task.update s2.1 s2.2 100 in
    calls s2.2 = 2%nat /\ calls s3.2 = 3%nat /\ calls s3.2 <> calls s2.2).
Proof.
  unfold Task.__init__. destruct (decide (2 >= -1)%Z); [|lia].
  unfold on_ok, Task.updates. cbn zeta.
  task_fire. destruct (decide (2 - 1 <= 0)%Z); [lia|].
  task_fire. destruct (decide (2 - 1 - 1 <= 0)%Z); [|lia].
  unfold Task.kill. task_fire.
  unfold calls, invoke. cbn [trace length].
  repeat split; try reflexivity. lia.
Qed.
(** ** Animation *)

Section AnimationProperties.

Implicit Types (self : Animation.t) (w : world) (dt : R).
Implicit Types (h : gmap ref (gmap string R)).

Lemma transition_by_name_linear : transition_by_name "linear" = Ok Linear.
Proof. reflexivity. Qed.

(** *** Writes touch the bound targets only *)

Lemma setattr_other h (o a : ref) (name : string) (v : R) :
  a <> o -> setattr h o name v !! a = h !! a.
Proof. intros Hne. unfold setattr. apply lookup_alter_ne. congruence. Qed.

Lemma write_props_other (rv : bool) (t : R) (o a : ref)
  (items : list (string * (R * R))) : forall h,
  a <> o -> Animation.write_props rv t o items h !! a = h !! a.
Proof.
  induction items as [|[name values] items IH]; intros h Hne; cbn.
  - reflexivity.
  - rewrite IH by assumption. apply setattr_other, Hne.
Qed.

Lemma write_targets_other (rv : bool) (t : R) (a : ref)
  (targets : list (ref * list (string * (R * R)))) : forall h,
  a ∉ List.map fst targets ->
  Animation.write_targets rv t targets h !! a = h !! a.
Proof.
  induction targets as [|[o items] targets IH]; intros h Hnin; cbn.
  - reflexivity.
  - cbn in Hnin. apply not_elem_of_cons in Hnin as [Hne Hnin].
    rewrite IH by assumption. apply write_props_other, Hne.
Qed.

(** *** One call of [update], branch by branch *)

(** Fields that [update] never assigns. *)
Lemma update_frame self w dt :
  let self' := (Animation.update self w dt).1.1 in
  Animation._elapsed self' = Animation._elapsed self + dt /\
  Animation._duration self' = Animation._duration self /\
  Animation._delay self' = Animation._delay self /\
  Animation._transition self' = Animation._transition self /\
  Animation._round_values self' = Animation._round_values self /\
  Animation.callback self' = Animation.callback self /\
  Animation.props self' = Animation.props self.
Proof.
  unfold Animation.update. cbn.
  repeat first [ case_decide | case_match ]; cbn; auto 10.
Qed.

(** Before the delay has elapsed: only the clock moves. *)
Lemma update_delayed self w dt :
  Animation._elapsed self + dt < Animation._delay self ->
  Animation.update self w dt =
    (Animation.set_elapsed self (Animation._elapsed self + dt), w, Ok tt).
Proof.
  intros Hlt. unfold Animation.update. cbn. rdecide; try reflexivity.
Qed.

(** Zero duration: the division raises before anything is written. *)
Lemma update_zero_duration self w dt :
  Animation._duration self = 0 ->
  Animation._delay self <= Animation._elapsed self + dt ->
  Animation.update self w dt =
    (Animation.set_elapsed self (Animation._elapsed self + dt), w,
     Raise ZeroDivisionError).
Proof.
  intros HD Hge. unfold Animation.update, py_div. cbn.
  rdecide; reflexivity.
Qed.

(** No targets: nothing outside [self] changes and [_targets] stays
    [None]; past the delay the call raises. *)
Lemma update_unbound self w dt :
  Animation._targets self = None ->
  (Animation.update self w dt).1.2 = w /\
  Animation._targets (Animation.update self w dt).1.1 = None /\
  (Animation._delay self <= Animation._elapsed self + dt ->
   exists e, (Animation.update self w dt).2 = Raise e).
Proof.
  intros Hnone. unfold Animation.update. cbn. rewrite Hnone.
  repeat first [ case_decide | case_match ]; cbn;
    repeat split; auto; intros; try lra; eauto.
Qed.

(** Past the delay, with targets and a transition that returns: the
    frame is written with progress [min(1, elapsed / duration)]. *)
Lemma update_running self w dt targets (t : R) :
  Animation._targets self = Some targets ->
  Animation._delay self <= Animation._elapsed self + dt ->
  Animation._duration self <> 0 ->
  Animation._transition self
    (Rmin 1 ((Animation._elapsed self + dt) / Animation._duration self))
    = Ok t ->
  let p :=
    Rmin 1 ((Animation._elapsed self + dt) / Animation._duration self) in
  let self1 := Animation.set_elapsed self (Animation._elapsed self + dt) in
  let w1 :=
    World (Animation.write_targets (Animation._round_values self) t targets
             (heap w)) (trace w) in
  Animation.update self w dt =
    if decide (1 <= p) then
      (Animation.kill (Animation.set_targets self1 None),
       match Animation.callback self with
       | Some f => invoke w1 f [] []
       | None => w1
       end, Ok tt)
    else (self1, w1, Ok tt).
Proof.
  intros Htg Hge HD Ht. cbn zeta.
  unfold Animation.update, py_div. cbn.
  rewrite Htg.
  case_decide; [lra|]. case_decide; [contradiction|].
  replace 1.0 with 1 by lra. rewrite Ht.
  repeat case_decide; try lra; destruct (Animation.callback self);
    reflexivity.
Qed.

(** Past the delay but short of full progress, or before the delay: the
    targets stay bound and no callback is invoked (even if the transition
    raises). *)
Lemma update_incomplete self w dt targets :
  Animation._targets self = Some targets ->
  Animation._duration self <> 0 ->
  Animation._elapsed self + dt < Animation._delay self \/
    (Animation._elapsed self + dt) / Animation._duration self < 1 ->
  Animation._targets (Animation.update self w dt).1.1 = Some targets /\
  trace (Animation.update self w dt).1.2 = trace w.
Proof.
  intros Htg HD Hlt. unfold Animation.update, py_div. cbn. rewrite Htg.
  case_decide; [auto|]. case_decide; [contradiction|].
  destruct Hlt as [Hlt|Hlt]; [lra|].
  case_match; [|auto].
  case_decide as Hp; [|auto].
  exfalso. unfold Rmin in Hp. case_match; lra.
Qed.

(** *** Sequences of calls *)

Lemma updates_cons self w dt (dts : list R) :
  Animation.updates self w (dt :: dts) =
    Animation.updates (Animation.update self w dt).1.1
      (Animation.update self w dt).1.2 dts.
Proof. cbn. destruct (Animation.update self w dt) as [[? ?] ?]. reflexivity. Qed.

(** With no targets, no sequence of calls changes anything outside
    [self]. *)
Lemma updates_unbound (dts : list R) : forall self w,
  Animation._targets self = None ->
  (Animation.updates self w dts).2 = w.
Proof.
  induction dts as [|dt dts IH]; intros self w Hnone.
  - reflexivity.
  - rewrite updates_cons.
    destruct (update_unbound self w dt Hnone) as (Hw & Hnone' & _).
    rewrite IH by assumption. exact Hw.
Qed.

(** While every call leaves the clock short of the delay, the world is
    untouched. *)
Lemma updates_delayed (dts : list R) : forall self w,
  (forall i, (i < length dts)%nat ->
     Animation._elapsed (Animation.updates self w (take (S i) dts)).1
       < Animation._delay self) ->
  (Animation.updates self w dts).2 = w.
Proof.
  induction dts as [|dt dts IH]; intros self w Hall.
  - reflexivity.
  - assert (Hdt : Animation._elapsed self + dt < Animation._delay self).
    { specialize (Hall 0%nat ltac:(cbn; lia)).
      change (take 1 (dt :: dts)) with [dt] in Hall.
      rewrite updates_cons in Hall. cbn [Animation.updates fst] in Hall.
      pose proof (update_frame self w dt) as (He & _). cbn zeta in He.
      rewrite He in Hall. exact Hall. }
    rewrite updates_cons, (update_delayed self w dt Hdt). cbn [fst snd].
    apply IH. intros i Hi.
    specialize (Hall (S i) ltac:(cbn; lia)).
    change (take (S (S i)) (dt :: dts)) with (dt :: take (S i) dts) in Hall.
    rewrite updates_cons, (update_delayed self w dt Hdt) in Hall.
    exact Hall.
Qed.

(** The callback fires in the first call whose progress reaches 1, and
    the trace is frozen from then on. *)
Lemma updates_fire_once (k : nat) : forall self w (dts : list R) targets f t1,
  Animation._targets self = Some targets ->
  Animation.callback self = Some f ->
  Animation._duration self <> 0 ->
  Animation._transition self 1 = Ok t1 ->
  (k < length dts)%nat ->
  (forall i, (i < k)%nat ->
     let e := Animation._elapsed
                (Animation.updates self w (take (S i) dts)).1 in
     e < Animation._delay self \/ e / Animation._duration self < 1) ->
  (let e := Animation._elapsed
              (Animation.updates self w (take (S k) dts)).1 in
   Animation._delay self <= e /\ 1 <= e / Animation._duration self) ->
  (forall n, (n <= k)%nat ->
     trace (Animation.updates self w (take n dts)).2 = trace w) /\
  (forall n, (k < n)%nat ->
     trace (Animation.updates self w (take n dts)).2
       = Call f [] [] :: trace w).
Proof.
  induction k as [|k IH]; intros self w dts targets f t1 Htg Hcb HD Ht1 Hk
    Hbefore Hat; destruct dts as [|dt dts]; cbn in Hk; try lia.
  - split; [intros n Hn; replace n with 0%nat by lia; reflexivity|].
    intros n Hn. destruct n as [|n]; [lia|].
    change (take (S n) (dt :: dts)) with (dt :: take n dts).
    change (take 1 (dt :: dts)) with [dt] in Hat.
    rewrite updates_cons in Hat |- *. cbn in Hat.
    pose proof (update_frame self w dt) as (He & _). cbn zeta in He.
    rewrite He in Hat. destruct Hat as [Hge Hone].
    assert (Hp : Rmin 1 ((Animation._elapsed self + dt)
                           / Animation._duration self) = 1)
      by (apply Rmin_left; exact Hone).
    rewrite (update_running self w dt targets t1 Htg Hge HD)
      by (rewrite Hp; exact Ht1).
    rewrite Hp, Hcb. case_decide; [|lra]. cbn [fst snd].
    rewrite updates_unbound by reflexivity. reflexivity.
  - pose proof (Hbefore 0%nat ltac:(lia)) as H0.
    change (take 1 (dt :: dts)) with [dt] in H0.
    rewrite updates_cons in H0. cbn in H0.
    pose proof (update_frame self w dt) as (He & HD' & Hdl & Htr & _ & Hcb' & _).
    cbn zeta in He, HD', Hdl, Htr, Hcb'.
    rewrite He in H0.
    destruct (update_incomplete self w dt targets Htg HD H0) as [Htg' Htrace].
    specialize (IH (Animation.update self w dt).1.1
                   (Animation.update self w dt).1.2 dts targets f t1).
    rewrite HD', Hdl, Htr, Hcb', Htrace in IH.
    destruct IH as [IH1 IH2]; try assumption; try lia.
    + intros i Hi. specialize (Hbefore (S i) ltac:(lia)).
      change (take (S (S i)) (dt :: dts)) with (dt :: take (S i) dts)
        in Hbefore.
      rewrite updates_cons in Hbefore. exact Hbefore.
    + change (take (S (S k)) (dt :: dts)) with (dt :: take (S k) dts) in Hat.
      rewrite updates_cons in Hat. exact Hat.
    + split.
      * intros n Hn. destruct n as [|n]; [reflexivity|].
        change (take (S n) (dt :: dts)) with (dt :: take n dts).
        rewrite updates_cons. apply IH1. lia.
      * intros n Hn. destruct n as [|n]; [lia|].
        change (take (S n) (dt :: dts)) with (dt :: take n dts).
        rewrite updates_cons. apply IH2. lia.
Qed.

(** *** Reading and writing one attribute *)

Lemma getattr_lookup h (o : ref) (name : string) (attrs : gmap string R)
  (v : R) :
  h !! o = Some attrs -> attrs !! name = Some v -> getattr h o name = Ok v.
Proof. intros Ho Hn. unfold getattr. rewrite Ho. cbn. rewrite Hn. reflexivity. Qed.

Lemma getattr_other h (o a : ref) (name : string) :
  forall h', h' !! a = h !! a -> getattr h' a name = getattr h a name.
Proof. intros h' Heq. unfold getattr. rewrite Heq. reflexivity. Qed.

Lemma getattr_setattr h (o : ref) (name : string) (attrs : gmap string R)
  (v : R) :
  h !! o = Some attrs -> getattr (setattr h o name v) o name = Ok v.
Proof.
  intros Ho. unfold getattr, setattr.
  rewrite lookup_alter_eq, Ho. cbn. rewrite lookup_insert_eq. reflexivity.
Qed.

(** *** [start] *)

(** Whatever was bound before, and whether or not reading the attributes
    succeeds, [start] leaves exactly its argument bound. *)
Lemma start_bound self w (sprite : ref) :
  Animation.bound (Animation.start self w sprite).1 = [sprite].
Proof.
  unfold Animation.start, Animation.capture_all.
  destruct (Animation.capture (heap w) sprite (Animation.props self) [])
    as [d [[]|e]]; reflexivity.
Qed.

(** [start] does not read [_targets]: what it binds does not depend on
    earlier bindings. *)
Lemma start_forgets self w (sprite : ref)
  (v : option (list (ref * list (string * (R * R))))) :
  Animation._targets
    (Animation.start (Animation.set_targets self v) w sprite).1
  = Animation._targets (Animation.start self w sprite).1 /\
  (Animation.start (Animation.set_targets self v) w sprite).2
  = (Animation.start self w sprite).2.
Proof.
  unfold Animation.start, Animation.capture_all. cbn.
  destruct (Animation.capture (heap w) sprite (Animation.props self) [])
    as [d [[]|e]]; split; reflexivity.
Qed.

Lemma start_is_set_targets self w (sprite : ref) :
  (Animation.start self w sprite).1 =
    Animation.set_targets self
      (Animation._targets (Animation.start self w sprite).1).
Proof.
  unfold Animation.start, Animation.capture_all.
  destruct (Animation.capture (heap w) sprite (Animation.props self) [])
    as [d [[]|e]]; reflexivity.
Qed.

(** One property on a target that has it. *)
Lemma start_single self w (sprite : ref) (name : string) (a b : R) :
  Animation.props self = [(name, b)] ->
  getattr (heap w) sprite name = Ok a ->
  Animation.start self w sprite =
    (Animation.set_targets self (Some [(sprite, [(name, (a, b))])]), Ok tt).
Proof.
  intros Hprops Hget. unfold Animation.start. rewrite Hprops. cbn.
  rewrite Hget. reflexivity.
Qed.

(** A call of [update] leaves every object that is not bound alone. *)
Lemma update_heap_other self w dt (a : ref) :
  a ∉ Animation.bound self ->
  heap (Animation.update self w dt).1.2 !! a = heap w !! a.
Proof.
  intros Hnin. unfold Animation.update, Animation.bound in *. cbn.
  repeat first [ case_decide | case_match ]; cbn; try reflexivity;
    simplify_eq; apply write_targets_other; assumption.
Qed.

End AnimationProperties.

(** ** End-to-end statements about [Animation] *)

(** Projections of an explicit animation record. *)
Ltac ani_fields :=
  unfold Animation.set_targets, Animation.set_elapsed,
    Animation.set_callback, Animation.kill, Animation.add;
  cbn [Animation._targets Animation._started Animation._round_values
       Animation._duration Animation._delay Animation._transition
       Animation._elapsed Animation.props Animation.callback
       Animation.groups fst snd default from_option];
  unfold Datatypes.id.

(** The constructor with the linear transition, selected by name or by
    default. *)
Lemma init_linear (rv : option bool) (duration delay : option R)
  (tr : option Animation.transition_arg) (props : list (string * R)) :
  tr = None \/ tr = Some (Animation.ByName "linear") ->
  Animation.__init__ (Animation.Kwargs rv duration delay tr props) =
    Ok (Animation.mk None false (default false rv) (default 1000.0 duration)
          (default 0 delay) (easing_fn Linear) 0.0 props None ∅).
Proof. intros [->| ->]; reflexivity. Qed.

(** The frame written on a single target with a single property. *)
Lemma write_single (rv : bool) (t : R) (target : ref) (name : string)
  (values : R * R) (h : gmap ref (gmap string R)) (attrs : gmap string R) :
  h !! target = Some attrs ->
  getattr (Animation.write_targets rv t [(target, [(name, values)])] h)
    target name = Ok (Animation.blend rv t values).
Proof. intros Hh. cbn [Animation.write_targets Animation.write_props]. eapply getattr_setattr, Hh. Qed.

(** C9: with duration [D > 0], delay 0, no rounding, the linear transition
    and the single property [x=100], after [start(target)] on a target whose
    [x] is 0, one call [update(D)] writes exactly 100 to [target.x]. *)
Theorem update_full_duration_reaches_end
  (D : R) (target : ref) (h : gmap ref (gmap string R))
  (attrs : gmap string R) (tr : list event) :
  0 < D ->
  h !! target = Some attrs ->
  attrs !! "x" = Some 0 ->
  on_ok (Animation.__init__
           (Animation.Kwargs (Some false) (Some D) (Some 0)
              (Some (Animation.ByName "linear")) [("x", 100)]))
    (fun ani =>
       let w := World h tr in
       let s := Animation.start ani w target in
       let r := Animation.update s.1 w D in
       s.2 = Ok tt /\ r.2 = Ok tt /\
       getattr (heap r.1.2) target "x" = Ok 100).
Proof.
  intros HD Hh Hx.
  rewrite init_linear by auto. unfold on_ok. cbn zeta. ani_fields.
  erewrite start_single;
    [ | reflexivity | cbn [heap]; eapply getattr_lookup; eassumption ].
  ani_fields.
  assert (Hp : Rmin 1 ((0.0 + D) / D) = 1).
  { apply Rmin_left. replace (0.0 + D) with D by lra. right. field. lra. }
  erewrite update_running with (t := 1);
    [ | reflexivity | ani_fields; lra | ani_fields; lra
      | ani_fields; rewrite Hp; reflexivity ].
  ani_fields. rewrite Hp. case_decide; [|lra].
  cbn [fst snd heap].
  repeat split.
  erewrite write_single by eassumption.
  cbn [Animation.blend]. f_equal. lra.
Qed.

(** C9 at duration 1000, on a sprite that has only the attribute [x]. *)
Lemma update_full_duration_reaches_end_witness :
  on_ok (Animation.__init__
           (Animation.Kwargs (Some false) (Some 1000) (Some 0)
              (Some (Animation.ByName "linear")) [("x", 100)]))
    (fun ani =>
       let w := World {[ 1%positive := {[ "x" := 0 ]} ]} [] in
       let s := Animation.start ani w 1%positive in
       let r := Animation.update s.1 w 1000 in
       s.2 = Ok tt /\ r.2 = Ok tt /\
       getattr (heap r.1.2) 1%positive "x" = Ok 100).
Proof.
  apply (update_full_duration_reaches_end 1000 1%positive
           {[ 1%positive := {[ "x" := 0 ]} ]} {[ "x" := 0 ]} []).
  - lra.
  - apply lookup_singleton_eq.
  - apply lookup_singleton_eq.
Defined.

(** The clock accumulates every step, whatever the outcome of the call. *)
Lemma updates_elapsed (dts : list R) : forall (self : Animation.t) (w : world),
  Animation._elapsed (Animation.updates self w dts).1
    = fold_left Rplus dts (Animation._elapsed self).
Proof.
  induction dts as [|dt dts IH]; intros self w.
  - reflexivity.
  - rewrite updates_cons, IH. cbn [fold_left].
    pose proof (update_frame self w dt) as (He & _). cbn zeta in He.
    rewrite He. reflexivity.
Qed.

(** The clock of an explicit animation after an explicit list of steps. *)
Ltac example_elapsed :=
  rewrite updates_elapsed; ani_fields; cbn [take fold_left]; lra.

(** C3, as the code has it: on an animation with no targets ([start] never
    called), [update(dt)] never changes an attribute nor invokes a callback;
    it returns normally while the accumulated time is below the delay, and
    raises an exception in every call that finds the delay reached. *)
Theorem update_before_start
  (self : Animation.t) (w : world) (dt : R) :
  Animation._targets self = None ->
  let r := Animation.update self w dt in
  r.1.2 = w /\
  Animation._targets r.1.1 = None /\
  (Animation._elapsed self + dt < Animation._delay self -> r.2 = Ok tt) /\
  (Animation._delay self <= Animation._elapsed self + dt ->
   exists e, r.2 = Raise e).
Proof.
  intros Hnone r. subst r.
  destruct (update_unbound self w dt Hnone) as (Hw & Hn & Hraise).
  repeat split; try assumption.
  intros Hlt. rewrite update_delayed by assumption. reflexivity.
Qed.

(** C3 on a fresh default animation with delay 100: silent at 60, raising
    at 120. *)
Lemma update_before_start_witness :
  let self :=
    Animation.mk None false false 1000 100 (easing_fn Linear) 0 [("x", 100)]
      None ∅ in
  (Animation.update self (World ∅ []) 60).2 = Ok tt /\
  (Animation.update self (World ∅ []) 60).1.2 = World ∅ [] /\
  exists e, (Animation.update self (World ∅ []) 120).2 = Raise e.
Proof.
  cbn zeta. repeat split.
  - apply (update_before_start
             (Animation.mk None false false 1000 100 (easing_fn Linear) 0
                [("x", 100)] None ∅) (World ∅ []) 60 eq_refl).
    ani_fields. lra.
  - apply (update_before_start
             (Animation.mk None false false 1000 100 (easing_fn Linear) 0
                [("x", 100)] None ∅) (World ∅ []) 60 eq_refl).
  - apply (update_before_start
             (Animation.mk None false false 1000 100 (easing_fn Linear) 0
                [("x", 100)] None ∅) (World ∅ []) 120 eq_refl).
    ani_fields. lra.
Defined.

(** C3 fails as stated: a default animation that was never started raises
    on its first [update]. *)
Lemma update_before_start_raises :
  on_ok (Animation.__init__
           (Animation.Kwargs None None None None [("x", 100)]))
    (fun ani =>
       Animation._targets ani = None /\
       (Animation.update ani (World ∅ []) 16).2 = Raise TypeError).
Proof.
  rewrite init_linear by auto. unfold on_ok. split; [reflexivity|].
  unfold Animation.update, py_div. ani_fields.
  case_decide; [lra|]. case_decide; [lra|]. reflexivity.
Qed.

(** C4, as the code has it: on an animation of duration 0, [update] guards
    nothing: it returns normally only while the accumulated time is below
    the delay, and raises [ZeroDivisionError] in every call that finds the
    delay reached, before any attribute is written or callback invoked. *)
Theorem update_zero_duration_raises
  (self : Animation.t) (w : world) (dt : R) :
  Animation._duration self = 0 ->
  let r := Animation.update self w dt in
  r.1.2 = w /\
  Animation._targets r.1.1 = Animation._targets self /\
  (Animation._elapsed self + dt < Animation._delay self -> r.2 = Ok tt) /\
  (Animation._delay self <= Animation._elapsed self + dt ->
   r.2 = Raise ZeroDivisionError).
Proof.
  intros HD r. subst r.
  destruct (Rlt_le_dec (Animation._elapsed self + dt) (Animation._delay self))
    as [Hlt|Hge].
  - rewrite update_delayed by assumption. repeat split. intros. lra.
  - rewrite update_zero_duration by assumption. repeat split. intros. lra.
Qed.

(** C4 on a started animation of duration 0 and delay 100: silent at 60,
    division error at 120. *)
Lemma update_zero_duration_raises_witness :
  let self :=
    Animation.mk (Some [(1%positive, [("x", (0, 100))])]) false false 0 100
      (easing_fn Linear) 0 [("x", 100)] None ∅ in
  (Animation.update self (World ∅ []) 60).2 = Ok tt /\
  (Animation.update self (World ∅ []) 120).2 = Raise ZeroDivisionError /\
  (Animation.update self (World ∅ []) 120).1.2 = World ∅ [].
Proof.
  cbn zeta. repeat split.
  - apply (update_zero_duration_raises
             (Animation.mk (Some [(1%positive, [("x", (0, 100))])]) false
                false 0 100 (easing_fn Linear) 0 [("x", 100)] None ∅)
             (World ∅ []) 60 eq_refl).
    ani_fields. lra.
  - apply (update_zero_duration_raises
             (Animation.mk (Some [(1%positive, [("x", (0, 100))])]) false
                false 0 100 (easing_fn Linear) 0 [("x", 100)] None ∅)
             (World ∅ []) 120 eq_refl).
    ani_fields. lra.
  - apply (update_zero_duration_raises
             (Animation.mk (Some [(1%positive, [("x", (0, 100))])]) false
                false 0 100 (easing_fn Linear) 0 [("x", 100)] None ∅)
             (World ∅ []) 120 eq_refl).
Defined.

(** C4 fails as stated: an animation built with [duration=0] and started on
    a sprite raises a division error on its first [update]. *)
Lemma zero_duration_first_update_raises :
  on_ok (Animation.__init__
           (Animation.Kwargs None (Some 0) None None [("x", 100)]))
    (fun ani =>
       let w := World {[ 1%positive := {[ "x" := 0 ]} ]} [] in
       let s := Animation.start ani w 1%positive in
       s.2 = Ok tt /\
       (Animation.update s.1 w 16).2 = Raise ZeroDivisionError).
Proof.
  rewrite init_linear by auto. unfold on_ok. cbn zeta.
  erewrite start_single;
    [ | reflexivity
      | cbn [heap]; eapply getattr_lookup; apply lookup_singleton_eq ].
  split; [reflexivity|]. ani_fields.
  rewrite update_zero_duration by (ani_fields; lra). reflexivity.
Qed.

(** C8: as long as every call leaves the accumulated time strictly below
    the delay, no call of [update] changes anything outside the animation:
    the attributes of the targets are the same after each call. *)
Theorem no_write_before_delay
  (self : Animation.t) (w : world) (dts : list R) :
  (forall i, (i < length dts)%nat ->
     Animation._elapsed (Animation.updates self w (take (S i) dts)).1
       < Animation._delay self) ->
  forall n, (Animation.updates self w (take n dts)).2 = w.
Proof.
  intros Hall n. apply updates_delayed. intros i Hi.
  rewrite length_take in Hi.
  rewrite take_take. replace (Nat.min (S i) n) with (S i) by lia.
  apply Hall. lia.
Qed.

(** C8 on a started animation of delay 100 and the steps 30, 30, 30. *)
Lemma no_write_before_delay_witness :
  let self :=
    Animation.mk (Some [(1%positive, [("x", (0, 100))])]) false false 1000 100
      (easing_fn Linear) 0 [("x", 100)] None ∅ in
  let w := World {[ 1%positive := {[ "x" := 0 ]} ]} [] in
  (Animation.updates self w [30; 30; 30]).2 = w.
Proof.
  cbn zeta.
  apply (no_write_before_delay
           (Animation.mk (Some [(1%positive, [("x", (0, 100))])]) false false
              1000 100 (easing_fn Linear) 0 [("x", 100)] None ∅)
           (World {[ 1%positive := {[ "x" := 0 ]} ]} []) [30; 30; 30]
         ) with (n := 3%nat).
  intros i Hi. cbn [length] in Hi.
  destruct i as [|[|[|i]]]; [example_elapsed ..| lia].
Defined.

(** C2, as the code has it: [start] assigns a fresh one-element list to
    [_targets].  After [start(a)] and then [start(b)] only [b] is bound,
    with exactly the binding that [start(b)] alone would have made, and a
    later [update] leaves the attributes of [a] (distinct from [b]) as they
    are. *)
Theorem start_replaces_bindings
  (self : Animation.t) (w1 w2 : world) (a b : ref) :
  a <> b ->
  let s1 := (Animation.start self w1 a).1 in
  let s2 := (Animation.start s1 w2 b).1 in
  Animation.bound s2 = [b] /\
  Animation._targets s2 = Animation._targets (Animation.start self w2 b).1 /\
  forall (w : world) (dt : R),
    heap (Animation.update s2 w dt).1.2 !! a = heap w !! a.
Proof.
  intros Hne s1 s2. subst s1 s2. repeat split.
  - apply start_bound.
  - rewrite (start_is_set_targets self w1 a). apply start_forgets.
  - intros w dt. apply update_heap_other.
    rewrite start_bound. intros Hin%list_elem_of_singleton. contradiction.
Qed.

(** C2 on two sprites at x = 0: only the second is bound, the first is
    left alone. *)
Lemma start_replaces_bindings_witness :
  let self :=
    Animation.mk None false false 1000 0 (easing_fn Linear) 0 [("x", 100)]
      None ∅ in
  let w := World {[ 1%positive := {[ "x" := 0 ]};
                    2%positive := {[ "x" := 0 ]} ]} [] in
  let s2 :=
    (Animation.start (Animation.start self w 1%positive).1 w 2%positive).1 in
  Animation.bound s2 = [2%positive] /\
  heap (Animation.update s2 w 1000).1.2 !! 1%positive = heap w !! 1%positive.
Proof.
  cbn zeta.
  destruct (start_replaces_bindings
              (Animation.mk None false false 1000 0 (easing_fn Linear) 0
                 [("x", 100)] None ∅)
              (World {[ 1%positive := {[ "x" := 0 ]};
                        2%positive := {[ "x" := 0 ]} ]} [])
              (World {[ 1%positive := {[ "x" := 0 ]};
                        2%positive := {[ "x" := 0 ]} ]} [])
              1%positive 2%positive ltac:(lia)) as (Hb & _ & Hh).
  split; [exact Hb | apply Hh].
Defined.

(** C2 fails as stated: after [start(a)] and [start(b)] on two sprites with
    [x = 0], the first sprite is no longer bound, and the [update] that
    completes the animation moves the second sprite to 100 and leaves the
    first at 0. *)
Lemma second_start_drops_first_target :
  on_ok (Animation.__init__
           (Animation.Kwargs None None None None [("x", 100)]))
    (fun ani =>
       let w := World {[ 1%positive := {[ "x" := 0 ]};
                         2%positive := {[ "x" := 0 ]} ]} [] in
       let s1 := Animation.start ani w 1%positive in
       let s2 := Animation.start s1.1 w 2%positive in
       let r := Animation.update s2.1 w 1000 in
       s1.2 = Ok tt /\ s2.2 = Ok tt /\ r.2 = Ok tt /\
       (1%positive ∉ Animation.bound (s2.1)) /\
       getattr (heap r.1.2) 1%positive "x" = Ok 0 /\
       getattr (heap r.1.2) 2%positive "x" = Ok 100).
Proof.
  rewrite init_linear by auto. unfold on_ok. cbn zeta.
  set (h := {[ 1%positive := {[ "x" := 0 ]};
               2%positive := {[ "x" := 0 ]} ]} : gmap ref (gmap string R)).
  assert (H1 : h !! 1%positive = Some {[ "x" := 0 ]}) by reflexivity.
  assert (H2 : h !! 2%positive = Some {[ "x" := 0 ]}) by reflexivity.
  assert (Hx : ({[ "x" := 0 ]} : gmap string R) !! "x" = Some 0)
    by apply lookup_singleton_eq.
  erewrite start_single;
    [ | reflexivity | cbn [heap]; eapply getattr_lookup; eassumption ].
  cbn [fst snd].
  erewrite start_single;
    [ | reflexivity | cbn [heap]; eapply getattr_lookup; eassumption ].
  ani_fields.
  assert (Hp : Rmin 1 ((0.0 + 1000) / 1000.0) = 1)
    by (apply Rmin_left; lra).
  erewrite update_running with (t := 1);
    [ | reflexivity | ani_fields; lra | ani_fields; lra
      | ani_fields; rewrite Hp; reflexivity ].
  ani_fields. rewrite Hp. case_decide; [|lra].
  cbn [fst snd heap Animation.bound Animation._targets List.map].
  do 3 (split; [reflexivity|]).
  split; [intros Hin%list_elem_of_singleton; discriminate|].
  split.
  - transitivity (getattr h 1%positive "x");
      [ | eapply getattr_lookup; eassumption ].
    apply getattr_other with (o := 2%positive).
    apply write_targets_other. cbn [List.map fst].
    intros Hin%list_elem_of_singleton. discriminate.
  - erewrite write_single by eassumption.
    cbn [Animation.blend]. f_equal. lra.
Qed.

(** C6, as the code has it: on a started animation with a completion
    callback, over any sequence of calls of [update] with no [start] in
    between, the callback is invoked exactly once: not in the calls before
    progress reaches 1, once in the call [k] where progress first reaches 1,
    and never in a later call. *)
Theorem completion_callback_fires_once
  (self : Animation.t) (w : world) (dts : list R) (k : nat)
  (targets : list (ref * list (string * (R * R)))) (f : ref) (t1 : R) :
  Animation._targets self = Some targets ->
  Animation.callback self = Some f ->
  Animation._duration self <> 0 ->
  Animation._transition self 1 = Ok t1 ->
  (k < length dts)%nat ->
  (forall i, (i < k)%nat ->
     let e := Animation._elapsed
                (Animation.updates self w (take (S i) dts)).1 in
     e < Animation._delay self \/ e / Animation._duration self < 1) ->
  (let e := Animation._elapsed
              (Animation.updates self w (take (S k) dts)).1 in
   Animation._delay self <= e /\ 1 <= e / Animation._duration self) ->
  (forall n, (n <= k)%nat ->
     trace (Animation.updates self w (take n dts)).2 = trace w) /\
  (forall n, (k < n)%nat ->
     trace (Animation.updates self w (take n dts)).2
       = Call f [] [] :: trace w) /\
  calls (Animation.updates self w dts).2 = S (calls w).
Proof.
  intros Htg Hcb HD Ht1 Hk Hbefore Hat.
  destruct (updates_fire_once k self w dts targets f t1 Htg Hcb HD Ht1 Hk
              Hbefore Hat) as [Hpre Hpost].
  repeat split; try assumption.
  specialize (Hpost (length dts) Hk). rewrite firstn_all in Hpost.
  unfold calls. rewrite Hpost. reflexivity.
Qed.

(** C6 on an animation of duration 1000 with the steps 400, 400, 400, 400:
    the third call completes it. *)
Lemma completion_callback_fires_once_witness :
  let self :=
    Animation.mk (Some [(1%positive, [("x", (0, 100))])]) false false 1000 0
      (easing_fn Linear) 0 [("x", 100)] (Some 9%positive) ∅ in
  let w := World {[ 1%positive := {[ "x" := 0 ]} ]} [] in
  trace (Animation.updates self w [400; 400]).2 = [] /\
  trace (Animation.updates self w [400; 400; 400]).2
    = [Call 9%positive [] []] /\
  calls (Animation.updates self w [400; 400; 400; 400]).2 = 1%nat.
Proof.
  cbn zeta.
  destruct (completion_callback_fires_once
              (Animation.mk (Some [(1%positive, [("x", (0, 100))])]) false
                 false 1000 0 (easing_fn Linear) 0 [("x", 100)]
                 (Some 9%positive) ∅)
              (World {[ 1%positive := {[ "x" := 0 ]} ]} [])
              [400; 400; 400; 400] 2%nat
              [(1%positive, [("x", (0, 100))])] 9%positive 1)
    as (Hpre & Hpost & Hcalls).
  - reflexivity.
  - reflexivity.
  - ani_fields. lra.
  - reflexivity.
  - cbn [length]. lia.
  - intros i Hi. cbn zeta.
    destruct i as [|[|i]]; [right | right | lia]; example_elapsed.
  - cbn zeta. split; example_elapsed.
  - split; [exact (Hpre 2%nat ltac:(lia)) | ].
    split; [exact (Hpost 3%nat ltac:(lia)) | exact Hcalls].
Defined.

(** * Further properties of the easing curves *)

Section EasingShape.

Import AnimationTransition.

Lemma py_sqrt_eq (x y : R) : x = y -> py_sqrt x = py_sqrt y.
Proof. intros ->. reflexivity. Qed.

(** Ease-out is ease-in run backwards, family by family. *)

Lemma quad_mirror (p : R) : out_quad p = 1 - in_quad (1 - p).
Proof. unfold out_quad, in_quad. nra. Qed.

Lemma cubic_mirror (p : R) : out_cubic p = 1 - in_cubic (1 - p).
Proof. unfold out_cubic, in_cubic. nra. Qed.

Lemma quart_mirror (p : R) : out_quart p = 1 - in_quart (1 - p).
Proof. unfold out_quart, in_quart. nra. Qed.

Lemma quint_mirror (p : R) : out_quint p = 1 - in_quint (1 - p).
Proof. unfold out_quint, in_quint. nra. Qed.

Lemma back_mirror (p : R) : out_back p = 1 - in_back (1 - p).
Proof. unfold out_back, in_back. nra. Qed.

Lemma sine_mirror (p : R) : out_sine p = 1 - in_sine (1 - p).
Proof.
  unfold out_sine, in_sine.
  replace ((1 - p) * (PI / 2.0)) with (PI / 2 - p * (PI / 2.0)) by lra.
  rewrite cos_shift. lra.
Qed.

Lemma expo_mirror (p : R) : out_expo p = 1 - in_expo (1 - p).
Proof.
  unfold out_expo, in_expo. repeat case_decide; try lra.
  replace (10 * (1 - p - 1.0)) with (-10 * p) by lra. lra.
Qed.

Lemma circ_mirror (p : R) :
  out_circ p = r ← in_circ (1 - p); mret (1 - r).
Proof.
  unfold out_circ, in_circ.
  rewrite (py_sqrt_eq (1.0 - (p - 1.0) * (p - 1.0))
             (1.0 - (1 - p) * (1 - p))) by nra.
  destruct (py_sqrt (1.0 - (1 - p) * (1 - p))) as [r|e]; cbn;
    [f_equal; lra | reflexivity].
Qed.

Lemma bounce_mirror (p : R) :
  out_bounce p = r ← in_bounce (1 - p); mret (1 - r).
Proof.
  unfold out_bounce, in_bounce, _in_bounce_internal.
  replace (1.0 - (1 - p)) with p by lra.
  destruct (_out_bounce_internal p 1.0) as [r|e]; cbn;
    [f_equal; lra | reflexivity].
Qed.

End EasingShape.

(** X1: in the quad, cubic, quart, quint, sine, expo, circ, back and bounce
    families the ease-out curve is the ease-in curve mirrored:
    [out(p) = 1 - in(1 - p)] for every [p], exceptions included. *)
Theorem ease_out_mirrors_ease_in (i o : easing) (p : R) :
  (i, o) ∈ [ (InQuad, OutQuad); (InCubic, OutCubic); (InQuart, OutQuart);
             (InQuint, OutQuint); (InSine, OutSine); (InExpo, OutExpo);
             (InCirc, OutCirc); (InBack, OutBack); (InBounce, OutBounce) ] ->
  easing_fn o p = r ← easing_fn i (1 - p); mret (1 - r).
Proof.
  intros Hin. repeat (apply elem_of_cons in Hin as [[= -> ->]|Hin]);
    [ .. | apply elem_of_nil in Hin; contradiction ];
    cbn [easing_fn mbind result_bind mret result_ret].
  - f_equal. apply quad_mirror.
  - f_equal. apply cubic_mirror.
  - f_equal. apply quart_mirror.
  - f_equal. apply quint_mirror.
  - f_equal. apply sine_mirror.
  - f_equal. apply expo_mirror.
  - apply circ_mirror.
  - f_equal. apply back_mirror.
  - apply bounce_mirror.
Qed.

(** X1 for the circular pair at progress 1/4. *)
Lemma ease_out_mirrors_ease_in_witness :
  easing_fn OutCirc (1 / 4) = r ← easing_fn InCirc (1 - 1 / 4); mret (1 - r).
Proof.
  apply (ease_out_mirrors_ease_in InCirc OutCirc (1 / 4)).
  do 6 apply list_elem_of_further. apply list_elem_of_here.
Defined.

Section EasingSymmetry.

Import AnimationTransition.

(** The in-out curves are symmetric about the point (1/2, 1/2). *)

Lemma in_out_quad_symm (p : R) : in_out_quad (1 - p) = 1 - in_out_quad p.
Proof. unfold in_out_quad. repeat case_decide; nra. Qed.

Lemma in_out_cubic_symm (p : R) : in_out_cubic (1 - p) = 1 - in_out_cubic p.
Proof. unfold in_out_cubic. repeat case_decide; nra. Qed.

Lemma in_out_quart_symm (p : R) : in_out_quart (1 - p) = 1 - in_out_quart p.
Proof. unfold in_out_quart. repeat case_decide; nra. Qed.

Lemma in_out_quint_symm (p : R) : in_out_quint (1 - p) = 1 - in_out_quint p.
Proof. unfold in_out_quint. repeat case_decide; nra. Qed.

Lemma in_out_back_symm (p : R) : in_out_back (1 - p) = 1 - in_out_back p.
Proof. unfold in_out_back. repeat case_decide; nra. Qed.

Lemma in_out_sine_symm (p : R) : in_out_sine (1 - p) = 1 - in_out_sine p.
Proof.
  unfold in_out_sine.
  replace (PI * (1 - p)) with (- (PI * p) + PI) by lra.
  rewrite neg_cos, cos_neg. lra.
Qed.

Lemma in_out_expo_symm (p : R) : in_out_expo (1 - p) = 1 - in_out_expo p.
Proof.
  unfold in_out_expo. repeat case_decide; try lra.
  - replace (10 * ((1 - p) * 2 - 1.0)) with (-10 * (p * 2 - 1.0)) by lra. lra.
  - replace (-10 * ((1 - p) * 2 - 1.0)) with (10 * (p * 2 - 1.0)) by lra. lra.
  - assert (p = 1 / 2) as -> by lra.
    rewrite !Rpower_2_0 by lra. lra.
Qed.

Lemma in_out_circ_symm (p : R) :
  in_out_circ (1 - p) = r ← in_out_circ p; mret (1 - r).
Proof.
  unfold in_out_circ. repeat case_decide; try lra.
  - rewrite (py_sqrt_eq (1.0 - (p * 2 - 2.0) * (p * 2 - 2.0))
               (1.0 - (1 - p) * 2 * ((1 - p) * 2))) by nra.
    destruct (py_sqrt _) as [r|e]; cbn; [f_equal; lra | reflexivity].
  - rewrite (py_sqrt_eq (1.0 - ((1 - p) * 2 - 2.0) * ((1 - p) * 2 - 2.0))
               (1.0 - p * 2 * (p * 2))) by nra.
    destruct (py_sqrt _) as [r|e]; cbn; [f_equal; lra | reflexivity].
  - assert (p = 1 / 2) as -> by lra.
    rewrite (py_sqrt_eq (1.0 - ((1 - 1 / 2) * 2 - 2.0) * ((1 - 1 / 2) * 2 - 2.0))
               0) by lra.
    rewrite (py_sqrt_eq (1.0 - (1 / 2 * 2 - 2.0) * (1 / 2 * 2 - 2.0)) 0)
      by lra.
    rewrite (py_sqrt_nonneg 0) by lra.
    rewrite sqrt_0. cbn. f_equal. lra.
Qed.

Lemma in_out_bounce_symm (p : R) :
  in_out_bounce (1 - p) = r ← in_out_bounce p; mret (1 - r).
Proof.
  unfold in_out_bounce, _in_bounce_internal. repeat case_decide; try lra.
  - replace (1.0 - (1 - p) * 2.0) with (p * 2.0 - 1.0) by lra.
    destruct (_out_bounce_internal _ 1.0) as [r|e]; cbn;
      [f_equal; lra | reflexivity].
  - replace (1.0 - p * 2.0) with ((1 - p) * 2.0 - 1.0) by lra.
    destruct (_out_bounce_internal _ 1.0) as [r|e]; cbn;
      [f_equal; lra | reflexivity].
  - assert (p = 1 / 2) as -> by lra.
    replace ((1 - 1 / 2) * 2.0 - 1.0) with 0 by lra.
    replace (1 / 2 * 2.0 - 1.0) with 0 by lra.
    rewrite out_bounce_internal_0. cbn. f_equal. lra.
Qed.

End EasingSymmetry.

(** X2: every in-out curve except [in_out_elastic] is symmetric about the
    midpoint: [f(1 - p) = 1 - f(p)] for every [p], exceptions included. *)
Theorem in_out_curves_are_symmetric (e : easing) (p : R) :
  e ∈ [ InOutQuad; InOutCubic; InOutQuart; InOutQuint; InOutSine;
        InOutExpo; InOutCirc; InOutBack; InOutBounce ] ->
  easing_fn e (1 - p) = r ← easing_fn e p; mret (1 - r).
Proof.
  intros Hin. repeat (apply elem_of_cons in Hin as [->|Hin]);
    [ .. | apply elem_of_nil in Hin; contradiction ];
    cbn [easing_fn mbind result_bind mret result_ret].
  - f_equal. apply in_out_quad_symm.
  - f_equal. apply in_out_cubic_symm.
  - f_equal. apply in_out_quart_symm.
  - f_equal. apply in_out_quint_symm.
  - f_equal. apply in_out_sine_symm.
  - f_equal. apply in_out_expo_symm.
  - apply in_out_circ_symm.
  - f_equal. apply in_out_back_symm.
  - apply in_out_bounce_symm.
Qed.

(** X2 for [in_out_bounce] at progress 1/3. *)
Lemma in_out_curves_are_symmetric_witness :
  easing_fn InOutBounce (1 - 1 / 3)
    = r ← easing_fn InOutBounce (1 / 3); mret (1 - r).
Proof.
  apply (in_out_curves_are_symmetric InOutBounce (1 / 3)).
  do 8 apply list_elem_of_further. apply list_elem_of_here.
Defined.

Section EasingRange.

Import AnimationTransition.

(** Products, square roots and powers of two on the unit interval. *)

Lemma unit_mul (a b : R) : 0 <= a <= 1 -> 0 <= b <= 1 -> 0 <= a * b <= 1.
Proof. intros [? ?] [? ?]. split; nra. Qed.

Lemma unit_sqrt (x : R) : 0 <= x <= 1 -> 0 <= sqrt x <= 1.
Proof.
  intros [? ?]. split; [apply sqrt_pos|].
  rewrite <- sqrt_1. apply sqrt_le_1; lra.
Qed.

Lemma unit_Rpower (y : R) : y <= 0 -> 0 < Rpower 2 y <= 1.
Proof.
  intros Hy. split; [apply exp_pos|].
  rewrite <- (Rpower_O 2) by lra. apply Rle_Rpower; lra.
Qed.

Lemma in_poly_range (p : R) :
  0 <= p <= 1 ->
  0 <= in_quad p <= 1 /\ 0 <= in_cubic p <= 1 /\
  0 <= in_quart p <= 1 /\ 0 <= in_quint p <= 1.
Proof.
  intros Hp. unfold in_quad, in_cubic, in_quart, in_quint.
  pose proof (unit_mul p p Hp Hp) as H2.
  pose proof (unit_mul _ p H2 Hp) as H3.
  pose proof (unit_mul _ p H3 Hp) as H4.
  pose proof (unit_mul _ p H4 Hp) as H5.
  auto.
Qed.

Lemma out_poly_range (p : R) :
  0 <= p <= 1 ->
  0 <= out_quad p <= 1 /\ 0 <= out_cubic p <= 1 /\
  0 <= out_quart p <= 1 /\ 0 <= out_quint p <= 1.
Proof.
  intros Hp. rewrite quad_mirror, cubic_mirror, quart_mirror, quint_mirror.
  destruct (in_poly_range (1 - p)) as (? & ? & ? & ?); [lra|].
  repeat split; lra.
Qed.

Lemma in_out_poly_range (p : R) :
  0 <= p <= 1 ->
  0 <= in_out_quad p <= 1 /\ 0 <= in_out_cubic p <= 1 /\
  0 <= in_out_quart p <= 1 /\ 0 <= in_out_quint p <= 1.
Proof.
  intros Hp.
  assert (Hlow : forall q, 0 <= q -> q * 2 < 1 ->
    0 <= in_quad (q * 2) <= 1 /\ 0 <= in_cubic (q * 2) <= 1 /\
    0 <= in_quart (q * 2) <= 1 /\ 0 <= in_quint (q * 2) <= 1)
    by (intros q ? ?; apply in_poly_range; lra).
  destruct (Rlt_le_dec (p * 2) 1) as [Hlt|Hge].
  - destruct (Hlow p) as (H2 & H3 & H4 & H5); [lra..|].
    unfold in_quad, in_cubic, in_quart, in_quint in *.
    unfold in_out_quad, in_out_cubic, in_out_quart, in_out_quint.
    repeat case_decide; try lra; repeat split; lra.
  - destruct (in_poly_range (2 - p * 2)) as (H2 & H3 & H4 & H5); [lra|].
    unfold in_quad, in_cubic, in_quart, in_quint in *.
    unfold in_out_quad, in_out_cubic, in_out_quart, in_out_quint.
    repeat case_decide; try lra; repeat split; nra.
Qed.

Lemma sine_range (p : R) :
  0 <= p <= 1 ->
  0 <= in_sine p <= 1 /\ 0 <= out_sine p <= 1 /\ 0 <= in_out_sine p <= 1.
Proof.
  intros Hp. unfold in_sine, out_sine, in_out_sine.
  pose proof PI_RGT_0.
  assert (Ha : 0 <= p * (PI / 2.0) <= PI / 2) by (split; nra).
  pose proof (cos_ge_0 (p * (PI / 2.0)) ltac:(lra) ltac:(lra)).
  pose proof (COS_bound (p * (PI / 2.0))) as [_ ?].
  pose proof (sin_ge_0 (p * (PI / 2.0)) ltac:(lra) ltac:(lra)).
  pose proof (SIN_bound (p * (PI / 2.0))) as [_ ?].
  pose proof (COS_bound (PI * p)) as [? ?].
  repeat split; lra.
Qed.

Lemma expo_range (p : R) :
  0 <= p <= 1 ->
  0 <= in_expo p <= 1 /\ 0 <= out_expo p <= 1 /\ 0 <= in_out_expo p <= 1.
Proof.
  intros Hp. unfold in_expo, out_expo, in_out_expo.
  repeat case_decide; try lra;
    repeat match goal with
    | |- context [Rpower 2 ?y] =>
        lazymatch goal with
        | _ : 0 < Rpower 2 y <= 1 |- _ => fail
        | _ => pose proof (unit_Rpower y ltac:(lra))
        end
    end; repeat split; lra.
Qed.

Lemma circ_range (p : R) :
  0 <= p <= 1 ->
  (exists v, in_circ p = Ok v /\ 0 <= v <= 1) /\
  (exists v, out_circ p = Ok v /\ 0 <= v <= 1) /\
  (exists v, in_out_circ p = Ok v /\ 0 <= v <= 1).
Proof.
  intros Hp. unfold in_circ, out_circ, in_out_circ.
  repeat split; repeat case_decide;
    match goal with
    | |- context [py_sqrt ?x] =>
        assert (Hx : 0 <= x <= 1) by (split; nra);
        rewrite (py_sqrt_nonneg x) by lra;
        pose proof (unit_sqrt x Hx)
    end; cbn; eexists; (split; [reflexivity | lra]).
Qed.

Lemma out_bounce_internal_range (p : R) :
  0 <= p <= 1 ->
  exists v, _out_bounce_internal p 1.0 = Ok v /\ 0 <= v <= 1.
Proof.
  intros Hp. unfold _out_bounce_internal. rewrite py_div_1. cbn.
  repeat case_decide; eexists; (split; [reflexivity | split; nra]).
Qed.

Lemma bounce_range (p : R) :
  0 <= p <= 1 ->
  (exists v, in_bounce p = Ok v /\ 0 <= v <= 1) /\
  (exists v, out_bounce p = Ok v /\ 0 <= v <= 1) /\
  (exists v, in_out_bounce p = Ok v /\ 0 <= v <= 1).
Proof.
  intros Hp. unfold in_bounce, out_bounce, in_out_bounce, _in_bounce_internal.
  repeat split; repeat case_decide;
    match goal with
    | |- context [_out_bounce_internal ?x 1.0] =>
        destruct (out_bounce_internal_range x) as (v & -> & Hv); [lra|]
    end; cbn; eexists; (split; [reflexivity | lra]).
Qed.

End EasingRange.

(** The curves that do not overshoot, on the unit interval. *)
Lemma easing_unit_range (e : easing) (p : R) :
  e ∉ [InBack; OutBack; InOutBack; InElastic; OutElastic; InOutElastic] ->
  0 <= p <= 1 ->
  exists v, easing_fn e p = Ok v /\ 0 <= v <= 1.
Proof.
  intros Hnot Hp.
  destruct (in_poly_range p Hp) as (? & ? & ? & ?).
  destruct (out_poly_range p Hp) as (? & ? & ? & ?).
  destruct (in_out_poly_range p Hp) as (? & ? & ? & ?).
  destruct (sine_range p Hp) as (? & ? & ?).
  destruct (expo_range p Hp) as (? & ? & ?).
  destruct (circ_range p Hp) as (? & ? & ?).
  destruct (bounce_range p Hp) as (? & ? & ?).
  destruct e; cbn [easing_fn]; try assumption;
    try (eexists; split; [reflexivity | assumption]).
  all: exfalso; apply Hnot;
    repeat first [apply list_elem_of_here | apply list_elem_of_further].
Qed.

(** X3: on the unit interval every curve outside the back and elastic
    families returns (no exception) a value in the unit interval. *)
Theorem easing_stays_in_unit_interval (e : easing) (p : R) :
  e ∉ [InBack; OutBack; InOutBack; InElastic; OutElastic; InOutElastic] ->
  0 <= p <= 1 ->
  exists v, easing_fn e p = Ok v /\ 0 <= v <= 1.
Proof. apply easing_unit_range. Qed.

(** X3 for [out_bounce] at progress 0.95. *)
Lemma easing_stays_in_unit_interval_witness :
  exists v, easing_fn OutBounce 0.95 = Ok v /\ 0 <= v <= 1.
Proof.
  apply (easing_stays_in_unit_interval OutBounce 0.95).
  - intros Hin.
    repeat (apply elem_of_cons in Hin as [Hin|Hin]; [discriminate|]).
    apply elem_of_nil in Hin. contradiction.
  - lra.
Defined.

(** Every curve of the catalogue returns on the unit interval. *)
Lemma easing_returns_on_unit_interval (e : easing) (p : R) :
  0 <= p <= 1 -> exists v, easing_fn e p = Ok v.
Proof.
  intros Hp.
  destruct (decide (e ∈ [InBack; OutBack; InOutBack; InElastic; OutElastic;
                         InOutElastic])) as [Hin|Hnot].
  - repeat (apply elem_of_cons in Hin as [->|Hin]);
      [ .. | apply elem_of_nil in Hin; contradiction ];
      cbn [easing_fn]; eexists; reflexivity.
  - destruct (easing_unit_range e p Hnot Hp) as (v & Hv & _).
    exists v. exact Hv.
Qed.

(** X4: over exact real arithmetic, the circular curves raise [ValueError]
    exactly outside an interval: [in_circ] outside [-1, 1], [out_circ]
    outside [0, 2] and [in_out_circ] outside [-1/2, 3/2].  (In binary
    floating point the subtraction [progress - 1.0] can absorb a tiny
    negative progress; this is not covered.) *)
Theorem circ_curves_domain (p : R) :
  (AnimationTransition.in_circ p = Raise ValueError <-> p < -1 \/ 1 < p) /\
  (AnimationTransition.out_circ p = Raise ValueError <-> p < 0 \/ 2 < p) /\
  (AnimationTransition.in_out_circ p = Raise ValueError
     <-> p < -1 / 2 \/ 3 / 2 < p).
Proof.
  unfold AnimationTransition.in_circ, AnimationTransition.out_circ,
    AnimationTransition.in_out_circ, py_sqrt.
  repeat split; repeat case_decide; cbn; intros Hx;
    first [ discriminate Hx | reflexivity | nra
          | exfalso; destruct Hx; nra ].
Qed.

(** X5: over exact real arithmetic, the back curves leave the unit
    interval: [in_back] is negative just after the start and [out_back]
    exceeds 1 just before the end.  (Floating-point rounding within one
    unit in the last place of 1 is not covered.) *)
Theorem back_curves_overshoot (p : R) :
  0 < p < 1.70158 / 2.70158 ->
  AnimationTransition.in_back p < 0 /\
  1 < AnimationTransition.out_back (1 - p).
Proof.
  intros [Hlo Hhi]. rewrite back_mirror.
  replace (1 - (1 - p)) with p by lra.
  assert (Hneg : AnimationTransition.in_back p < 0).
  { unfold AnimationTransition.in_back.
    assert (2.70158 * p < 1.70158).
    { apply (Rmult_lt_compat_l 2.70158) in Hhi; [|lra].
      replace (2.70158 * (1.70158 / 2.70158)) with 1.70158 in Hhi by lra.
      exact Hhi. }
    assert (0 < p * p) by nra. nra. }
  split; lra.
Qed.

(** X5 at progress 0.3. *)
Lemma back_curves_overshoot_witness :
  AnimationTransition.in_back 0.3 < 0 /\
  1 < AnimationTransition.out_back (1 - 0.3).
Proof. apply (back_curves_overshoot 0.3). lra. Defined.

Section EasingMonotone.

Import AnimationTransition.

Lemma mono_mul (a b c d : R) :
  0 <= a <= b -> 0 <= c <= d -> 0 <= a * c <= b * d.
Proof. intros [? ?] [? ?]. split; nra. Qed.

Lemma in_poly_mono (p q : R) :
  0 <= p <= q ->
  in_quad p <= in_quad q /\ in_cubic p <= in_cubic q /\
  in_quart p <= in_quart q /\ in_quint p <= in_quint q.
Proof.
  intros Hpq. unfold in_quad, in_cubic, in_quart, in_quint.
  pose proof (mono_mul p q p q Hpq Hpq) as H2.
  pose proof (mono_mul _ _ p q H2 Hpq) as H3.
  pose proof (mono_mul _ _ p q H3 Hpq) as H4.
  pose proof (mono_mul _ _ p q H4 Hpq) as H5.
  repeat split; lra.
Qed.

(** The two halves of the polynomial in-out curves are scaled copies of
    the ease-in curve. *)
Lemma in_out_poly_low (p : R) :
  p * 2 < 1 ->
  in_out_quad p = 1 / 2 * in_quad (p * 2) /\
  in_out_cubic p = 1 / 2 * in_cubic (p * 2) /\
  in_out_quart p = 1 / 2 * in_quart (p * 2) /\
  in_out_quint p = 1 / 2 * in_quint (p * 2).
Proof.
  intros Hp.
  unfold in_out_quad, in_out_cubic, in_out_quart, in_out_quint,
    in_quad, in_cubic, in_quart, in_quint.
  repeat case_decide; try lra; repeat split; nra.
Qed.

Lemma in_out_poly_high (p : R) :
  1 <= p * 2 ->
  in_out_quad p = 1 - 1 / 2 * in_quad (2 - p * 2) /\
  in_out_cubic p = 1 - 1 / 2 * in_cubic (2 - p * 2) /\
  in_out_quart p = 1 - 1 / 2 * in_quart (2 - p * 2) /\
  in_out_quint p = 1 - 1 / 2 * in_quint (2 - p * 2).
Proof.
  intros Hp.
  unfold in_out_quad, in_out_cubic, in_out_quart, in_out_quint,
    in_quad, in_cubic, in_quart, in_quint.
  repeat case_decide; try lra; repeat split; nra.
Qed.

Lemma in_out_poly_mono (p q : R) :
  0 <= p <= q -> q <= 1 ->
  in_out_quad p <= in_out_quad q /\ in_out_cubic p <= in_out_cubic q /\
  in_out_quart p <= in_out_quart q /\ in_out_quint p <= in_out_quint q.
Proof.
  intros Hpq Hq.
  destruct (Rlt_le_dec (q * 2) 1) as [Hql|Hqh].
  - destruct (in_out_poly_low p) as (-> & -> & -> & ->); [lra|].
    destruct (in_out_poly_low q Hql) as (-> & -> & -> & ->).
    destruct (in_poly_mono (p * 2) (q * 2)) as (? & ? & ? & ?); [lra|].
    repeat split; lra.
  - destruct (in_out_poly_high q Hqh) as (-> & -> & -> & ->).
    destruct (Rlt_le_dec (p * 2) 1) as [Hpl|Hph].
    + destruct (in_out_poly_low p Hpl) as (-> & -> & -> & ->).
      destruct (in_poly_range (p * 2)) as (? & ? & ? & ?); [lra|].
      destruct (in_poly_range (2 - q * 2)) as (? & ? & ? & ?); [lra|].
      repeat split; lra.
    + destruct (in_out_poly_high p Hph) as (-> & -> & -> & ->).
      destruct (in_poly_mono (2 - q * 2) (2 - p * 2))
        as (? & ? & ? & ?); [lra|].
      repeat split; lra.
Qed.

End EasingMonotone.

(** X6: over exact real arithmetic, the linear, quad, cubic, quart and
    quint curves never move backwards: on the unit interval they are
    non-decreasing in the progress.  (Between adjacent floating-point
    numbers rounding can invert the order; this is not covered.) *)
Theorem polynomial_curves_are_monotone (e : easing) (p q : R) :
  e ∈ [ Linear; InQuad; OutQuad; InOutQuad; InCubic; OutCubic; InOutCubic;
        InQuart; OutQuart; InOutQuart; InQuint; OutQuint; InOutQuint ] ->
  0 <= p <= q -> q <= 1 ->
  exists v1 v2, easing_fn e p = Ok v1 /\ easing_fn e q = Ok v2 /\ v1 <= v2.
Proof.
  intros Hin Hpq Hq.
  destruct (in_poly_mono p q Hpq) as (? & ? & ? & ?).
  destruct (in_poly_mono (1 - q) (1 - p)) as (? & ? & ? & ?); [lra|].
  destruct (in_out_poly_mono p q Hpq Hq) as (? & ? & ? & ?).
  pose proof (quad_mirror p). pose proof (quad_mirror q).
  pose proof (cubic_mirror p). pose proof (cubic_mirror q).
  pose proof (quart_mirror p). pose proof (quart_mirror q).
  pose proof (quint_mirror p). pose proof (quint_mirror q).
  repeat (apply elem_of_cons in Hin as [->|Hin]);
    [ .. | apply elem_of_nil in Hin; contradiction ];
    cbn [easing_fn]; do 2 eexists;
    (split; [reflexivity | split; [reflexivity | ] ]);
    unfold AnimationTransition.linear; lra.
Qed.

(** X6 for [in_out_cubic] across the midpoint. *)
Lemma polynomial_curves_are_monotone_witness :
  exists v1 v2,
    easing_fn InOutCubic 0.4 = Ok v1 /\ easing_fn InOutCubic 0.7 = Ok v2 /\
    v1 <= v2.
Proof.
  apply (polynomial_curves_are_monotone InOutCubic 0.4 0.7).
  - repeat first [apply list_elem_of_here | apply list_elem_of_further].
  - lra.
  - lra.
Defined.

(** * Further properties of [Task] *)

Section TaskRuns.

Implicit Types (self : Task.t) (w : world) (delta : R).

Lemma task_updates_cons self w delta (deltas : list R) :
  Task.updates self w (delta :: deltas) =
    Task.updates (Task.update self w delta).1 (Task.update self w delta).2
      deltas.
Proof. cbn. destruct (Task.update self w delta). reflexivity. Qed.

(** One call: the callback is invoked at most once, and the timer keeps
    whatever exceeds the interval. *)
Lemma task_update_account self w delta :
  (calls (Task.update self w delta).2 = calls w \/
   calls (Task.update self w delta).2 = S (calls w)) /\
  Task._timer (Task.update self w delta).1 =
    Task._timer self + delta
    - Task.interval self * INR (calls (Task.update self w delta).2 - calls w).
Proof.
  unfold Task.update, calls, invoke.
  repeat case_decide; cbn [fst snd trace length Task._timer Task.kill];
    rewrite ?Nat.sub_diag, ?Nat.sub_succ_l, ?Nat.sub_diag by lia;
    cbn [INR]; split; auto; lra.
Qed.

Lemma task_updates_account (deltas : list R) : forall self w,
  (calls w <= calls (Task.updates self w deltas).2
     <= calls w + length deltas)%nat /\
  Task._timer (Task.updates self w deltas).1 =
    Task._timer self + fold_right Rplus 0 deltas
    - Task.interval self * INR (calls (Task.updates self w deltas).2 - calls w).
Proof.
  induction deltas as [|d deltas IH]; intros self w.
  - cbn. rewrite Nat.sub_diag. cbn. split; [lia | lra].
  - rewrite task_updates_cons.
    destruct (task_update_account self w d) as [Hc Ht].
    destruct (task_update_frame self w d) as (Hi & _).
    destruct (IH (Task.update self w d).1 (Task.update self w d).2)
      as [Hc' Ht'].
    rewrite Ht', Ht, Hi. cbn [fold_right length].
    split; [lia|].
    replace (calls (Task.updates (Task.update self w d).1
                      (Task.update self w d).2 deltas).2 - calls w)%nat
      with ((calls (Task.updates (Task.update self w d).1
                      (Task.update self w d).2 deltas).2
             - calls (Task.update self w d).2)
            + (calls (Task.update self w d).2 - calls w))%nat by lia.
    rewrite plus_INR. lra.
Qed.

Lemma task_updates_endless (deltas : list R) : forall self w,
  Task._loops self = (-1)%Z ->
  Task._loops (Task.updates self w deltas).1 = (-1)%Z /\
  Task.groups (Task.updates self w deltas).1 = Task.groups self.
Proof.
  induction deltas as [|d deltas IH]; intros self w Hl.
  - auto.
  - rewrite task_updates_cons.
    destruct (task_update_endless self w d Hl) as [Hl' Hg].
    destruct (IH _ (Task.update self w d).2 Hl') as [? ?].
    split; congruence.
Qed.

End TaskRuns.

(** X7: over any sequence of calls of [Task.update], the callback is invoked
    at most once per call (a large step is not caught up within the call),
    and no time is lost: the timer holds the time received so far minus one
    interval per invocation. *)
Theorem task_timer_accounts_for_time
  (self : Task.t) (w : world) (deltas : list R) :
  let r := Task.updates self w deltas in
  (calls w <= calls r.2 <= calls w + length deltas)%nat /\
  Task._timer r.1 =
    Task._timer self + fold_right Rplus 0 deltas
    - Task.interval self * INR (calls r.2 - calls w).
Proof. apply task_updates_account. Qed.

(** X8: a task with [_loops = -1] is never decremented nor killed, whatever
    the steps. *)
Theorem task_endless_never_killed
  (self : Task.t) (w : world) (deltas : list R) :
  Task._loops self = (-1)%Z ->
  Task._loops (Task.updates self w deltas).1 = (-1)%Z /\
  Task.groups (Task.updates self w deltas).1 = Task.groups self.
Proof. apply task_updates_endless. Qed.

(** X8 on an endless task in one group, with a large, a zero and a negative
    step. *)
Lemma task_endless_never_killed_witness :
  let self := Task.mk 100 (-1) 5%positive 0 [] [] (-1) {[ 3%positive ]} in
  Task._loops (Task.updates self (World ∅ []) [1000; 0; -50]).1 = (-1)%Z /\
  Task.groups (Task.updates self (World ∅ []) [1000; 0; -50]).1
    = {[ 3%positive ]}.
Proof.
  exact (task_endless_never_killed
           (Task.mk 100 (-1) 5%positive 0 [] [] (-1) {[ 3%positive ]})
           (World ∅ []) [1000; 0; -50] eq_refl).
Defined.

Section TaskLoops.

Implicit Types (self : Task.t) (w : world) (delta : R).

(** A run in which every call is due: the timer starts non-negative and
    each step is at least one interval. *)
Lemma task_due_run (deltas : list R) : forall self w,
  (1 <= Task._loops self)%Z ->
  (Z.of_nat (length deltas) <= Task._loops self)%Z ->
  0 <= Task._timer self ->
  Forall (fun d => Task.interval self <= d) deltas ->
  let r := Task.updates self w deltas in
  calls r.2 = (length deltas + calls w)%nat /\
  Task._loops r.1 = (Task._loops self - Z.of_nat (length deltas))%Z /\
  Task.groups r.1 =
    if decide (Z.of_nat (length deltas) = Task._loops self)
    then ∅ else Task.groups self.
Proof.
  induction deltas as [|d deltas IH]; intros self w Hn Hk Ht Hall.
  - cbn. case_decide; [lia|]. repeat split. lia.
  - inversion Hall as [|? ? Hd Hrest]; subst.
    cbn [length] in Hk |- *. cbn zeta. rewrite task_updates_cons.
    rewrite task_update_fire_finite by (first [lra | lia]).
    cbn [fst snd]. cbn zeta.
    set (self' := Task.mk _ _ _ _ _ _ _ _).
    case_decide as Hlast.
    + assert (Hone : Task._loops self = 1%Z) by lia.
      assert (deltas = []) as -> by (destruct deltas; [reflexivity|cbn in Hk; lia]).
      cbn. unfold calls, invoke. cbn. rewrite Hone.
      case_decide; [|lia]. repeat split.
    + destruct (IH self' (invoke w (Task.callback self) (Task._args self)
                            (Task._kwargs self))) as (Hc & Hl & Hg).
      * subst self'. cbn. lia.
      * subst self'. cbn. lia.
      * subst self'. cbn. lra.
      * subst self'. cbn. exact Hrest.
      * cbn zeta in Hc, Hl, Hg. rewrite Hc, Hl, Hg.
        subst self'. cbn [Task._loops Task.groups].
        unfold calls, invoke. cbn [trace length].
        repeat split; try lia.
        repeat case_decide; try lia; reflexivity.
Qed.

(** Driven by a group, no call reaches a killed task. *)
Lemma task_group_updates_dead (g : ref) (deltas : list R) : forall self w,
  Task.groups self = ∅ ->
  Task.group_updates g self w deltas = (self, w).
Proof.
  induction deltas as [|d deltas IH]; intros self w Hg; cbn.
  - reflexivity.
  - unfold Task.group_update. rewrite Hg.
    case_decide as Hin; [apply elem_of_empty in Hin; contradiction|].
    apply IH, Hg.
Qed.

Lemma task_group_updates_bound (g : ref) (deltas : list R) : forall self w,
  (1 <= Task._loops self)%Z ->
  (calls (Task.group_updates g self w deltas).2
     <= calls w + Z.to_nat (Task._loops self))%nat.
Proof.
  induction deltas as [|d deltas IH]; intros self w Hn; cbn.
  - lia.
  - unfold Task.group_update. case_decide as Hin.
    + destruct (Rlt_le_dec (Task._timer self + d) (Task.interval self))
        as [Hlt|Hge].
      * rewrite task_update_silent by assumption.
        apply (IH (Task.mk _ _ _ _ _ _ _ _) w). exact Hn.
      * rewrite task_update_fire_finite by (first [lra | lia]).
        cbn zeta. case_decide as Hlast.
        -- rewrite task_group_updates_dead by reflexivity.
           unfold calls, invoke. cbn. lia.
        -- etransitivity; [apply IH; cbn; lia|].
           unfold calls, invoke. cbn. lia.
    + apply IH, Hn.
Qed.

End TaskLoops.

(** X9: a task with [n >= 1] loops left whose calls are all due (timer not
    negative, every step at least one interval) invokes the callback once
    per call; the loop counter goes down by one per call, and the task is
    killed by the [n]-th call and not before. *)
Theorem task_counts_down_then_killed
  (self : Task.t) (w : world) (deltas : list R) :
  (1 <= Task._loops self)%Z ->
  (Z.of_nat (length deltas) <= Task._loops self)%Z ->
  0 <= Task._timer self ->
  Forall (fun d => Task.interval self <= d) deltas ->
  let r := Task.updates self w deltas in
  calls r.2 = (length deltas + calls w)%nat /\
  Task._loops r.1 = (Task._loops self - Z.of_nat (length deltas))%Z /\
  Task.groups r.1 =
    if decide (Z.of_nat (length deltas) = Task._loops self)
    then ∅ else Task.groups self.
Proof. apply task_due_run. Qed.

(** X9 on a task with three loops: still in its group after two calls,
    killed by the third. *)
Lemma task_counts_down_then_killed_witness :
  let self := Task.mk 100 3 5%positive 0 [] [] 3 {[ 7%positive ]} in
  (calls (Task.updates self (World ∅ []) [100; 250]).2 = 2%nat /\
   Task.groups (Task.updates self (World ∅ []) [100; 250]).1
     = {[ 7%positive ]}) /\
  (calls (Task.updates self (World ∅ []) [100; 250; 100]).2 = 3%nat /\
   Task.groups (Task.updates self (World ∅ []) [100; 250; 100]).1 = ∅).
Proof.
  cbn zeta. split.
  - destruct (task_counts_down_then_killed
                (Task.mk 100 3 5%positive 0 [] [] 3 {[ 7%positive ]})
                (World ∅ []) [100; 250]) as (Hc & _ & Hg);
      [cbn; lia | cbn; lia | cbn; lra | repeat constructor; cbn; lra |].
    split; [exact Hc|]. rewrite Hg. cbn [Datatypes.length Task._loops Task.groups].
    case_decide as Hk; [cbn in Hk; lia | reflexivity].
  - destruct (task_counts_down_then_killed
                (Task.mk 100 3 5%positive 0 [] [] 3 {[ 7%positive ]})
                (World ∅ []) [100; 250; 100]) as (Hc & _ & Hg);
      [cbn; lia | cbn; lia | cbn; lra | repeat constructor; cbn; lra |].
    split; [exact Hc|]. rewrite Hg. cbn [Datatypes.length Task._loops Task.groups].
    case_decide as Hk; [reflexivity | cbn in Hk; lia].
Defined.

(** X10: a task built with [loops=0] is accepted by the constructor and
    does fire: once it belongs to a group [g], its first due call invokes
    the callback once and kills the task (it leaves every group), leaving
    the loop counter at -1, the mark of an endless task. *)
Theorem task_zero_loops_fires_once
  (f : ref) (interval delta : R) (args : option (list R))
  (kwargs : option (list (string * R))) (g : ref) (w : world) :
  interval <= delta ->
  on_ok (Task.__init__ (Function f) interval 0 args kwargs) (fun task =>
    let task := Task.add task g in
    let r := Task.update task w delta in
    g ∈ Task.groups task /\
    calls r.2 = S (calls w) /\
    Task.groups r.1 = ∅ /\
    Task._loops r.1 = (-1)%Z).
Proof.
  intros Hd. unfold Task.__init__. destruct (decide (0 >= -1)%Z); [|lia].
  unfold on_ok. cbn zeta. unfold Task.add. task_fields.
  rewrite task_update_fire_finite by (task_fields; first [lra | lia]).
  task_fields. case_decide; [|lia].
  unfold Task.kill, calls, invoke. task_fields. cbn [trace length].
  split; [apply elem_of_union_l, elem_of_singleton; reflexivity|].
  repeat split.
Qed.

(** X10 with interval 100, a step of 100 and the group 7. *)
Lemma task_zero_loops_fires_once_witness :
  on_ok (Task.__init__ (Function 5%positive) 100 0 None None) (fun task =>
    let task := Task.add task 7%positive in
    let r := Task.update task (World ∅ []) 100 in
    7%positive ∈ Task.groups task /\
    calls r.2 = 1%nat /\ Task.groups r.1 = ∅ /\ Task._loops r.1 = (-1)%Z).
Proof.
  apply (task_zero_loops_fires_once 5%positive 100 100 None None 7%positive
           (World ∅ [])).
  lra.
Defined.

(** X11: a task with [n >= 1] loops left that is only updated through a
    sprite group invokes its callback at most [n] times, whatever the
    steps. *)
Theorem task_in_group_fires_at_most_loops
  (g : ref) (self : Task.t) (w : world) (deltas : list R) :
  (1 <= Task._loops self)%Z ->
  (calls (Task.group_updates g self w deltas).2
     <= calls w + Z.to_nat (Task._loops self))%nat.
Proof. apply task_group_updates_bound. Qed.

(** X11 on a task with two loops and five due steps. *)
Lemma task_in_group_fires_at_most_loops_witness :
  let self := Task.mk 100 2 5%positive 0 [] [] 2 {[ 7%positive ]} in
  let r :=
    Task.group_updates 7%positive self (World ∅ [])
      [100; 100; 100; 100; 100] in
  (calls r.2 <= 0 + 2)%nat.
Proof.
  exact (task_in_group_fires_at_most_loops 7%positive
           (Task.mk 100 2 5%positive 0 [] [] 2 {[ 7%positive ]})
           (World ∅ []) [100; 100; 100; 100; 100] ltac:(cbn; lia)).
Defined.

(** * Further properties of [Animation] *)

Section AnimationWrites.

Implicit Types (self : Animation.t) (w : world) (dt : R).
Implicit Types (h : gmap ref (gmap string R)).

Lemma getattr_setattr_ne h (o o' : ref) (n n' : string) (v : R) :
  o' <> o \/ n' <> n ->
  getattr (setattr h o n v) o' n' = getattr h o' n'.
Proof.
  intros Hne. unfold getattr, setattr.
  destruct (decide (o' = o)) as [->|Ho].
  - rewrite lookup_alter_eq. destruct (h !! o) as [attrs|]; cbn; [|reflexivity].
    rewrite lookup_insert_ne by (destruct Hne; congruence). reflexivity.
  - rewrite lookup_alter_ne by congruence. reflexivity.
Qed.

Lemma setattr_is_Some h (o o' : ref) (n : string) (v : R) :
  is_Some (setattr h o n v !! o') <-> is_Some (h !! o').
Proof.
  unfold setattr. destruct (decide (o' = o)) as [->|Ho].
  - rewrite lookup_alter_eq. destruct (h !! o); cbn; split; intros [? ?];
      first [discriminate | eauto].
  - rewrite lookup_alter_ne by congruence. reflexivity.
Qed.

Lemma write_props_is_Some (rv : bool) (t : R) (o o' : ref)
  (items : list (string * (R * R))) : forall h,
  is_Some (Animation.write_props rv t o items h !! o') <-> is_Some (h !! o').
Proof.
  induction items as [|[n vals] items IH]; intros h; cbn.
  - reflexivity.
  - rewrite IH. apply setattr_is_Some.
Qed.

Lemma write_targets_is_Some (rv : bool) (t : R) (o' : ref)
  (targets : list (ref * list (string * (R * R)))) : forall h,
  is_Some (Animation.write_targets rv t targets h !! o')
    <-> is_Some (h !! o').
Proof.
  induction targets as [|[o items] targets IH]; intros h; cbn.
  - reflexivity.
  - rewrite IH. apply write_props_is_Some.
Qed.

(** Attributes that are not named in the captured dict keep their value. *)
Lemma write_props_other_key (rv : bool) (t : R) (o o' : ref) (n' : string)
  (items : list (string * (R * R))) : forall h,
  o' <> o \/ n' ∉ items.*1 ->
  getattr (Animation.write_props rv t o items h) o' n' = getattr h o' n'.
Proof.
  induction items as [|[n vals] items IH]; intros h Hne; cbn.
  - reflexivity.
  - rewrite IH.
    + apply getattr_setattr_ne. destruct Hne as [?|Hn]; [auto|].
      right. intros ->. apply Hn. cbn. apply list_elem_of_here.
    + destruct Hne as [?|Hn]; [auto|].
      right. intros Hin. apply Hn. cbn. apply list_elem_of_further, Hin.
Qed.

Lemma write_targets_other_key (rv : bool) (t : R) (o' : ref) (n' : string)
  (targets : list (ref * list (string * (R * R)))) : forall h,
  (forall items, (o', items) ∈ targets -> n' ∉ items.*1) ->
  getattr (Animation.write_targets rv t targets h) o' n' = getattr h o' n'.
Proof.
  induction targets as [|[o items] targets IH]; intros h Hne; cbn.
  - reflexivity.
  - rewrite IH.
    + apply write_props_other_key.
      destruct (decide (o' = o)) as [->|Ho]; [|auto].
      right. apply Hne, list_elem_of_here.
    + intros items' Hin. apply Hne, list_elem_of_further, Hin.
Qed.

(** With distinct names, each captured attribute receives its own blend. *)
Lemma write_props_get (rv : bool) (t : R) (o : ref) (n : string)
  (vals : R * R) (items : list (string * (R * R))) : forall h,
  is_Some (h !! o) ->
  NoDup items.*1 ->
  (n, vals) ∈ items ->
  getattr (Animation.write_props rv t o items h) o n
    = Ok (Animation.blend rv t vals).
Proof.
  induction items as [|[n0 v0] items IH]; intros h [attrs Hh] Hnd Hin.
  - apply elem_of_nil in Hin. contradiction.
  - cbn in Hnd. apply NoDup_cons in Hnd as [Hn0 Hnd]. cbn.
    apply elem_of_cons in Hin as [[= -> ->]|Hin].
    + rewrite write_props_other_key by auto.
      eapply getattr_setattr, Hh.
    + apply IH; [|assumption..].
      apply setattr_is_Some. eauto.
Qed.

End AnimationWrites.

Section AnimationStart.

Implicit Types (self : Animation.t) (w : world) (dt : R).
Implicit Types (h : gmap ref (gmap string R)).

Lemma getattr_raises h (o : ref) (n : string) (e : exn) :
  getattr h o n = Raise e -> e = AttributeError.
Proof. unfold getattr. case_match; congruence. Qed.

Lemma dict_set_fresh {V : Type} (d : list (string * V)) (k : string) (v : V) :
  k ∉ d.*1 -> dict_set d k v = d ++ [(k, v)].
Proof.
  induction d as [|[k' v'] d IH]; intros Hk; cbn.
  - reflexivity.
  - cbn in Hk. apply not_elem_of_cons in Hk as [Hne Hk].
    case_decide; [congruence|]. rewrite IH by assumption. reflexivity.
Qed.

(** Every property is present: the dict receives, in order, the current
    value paired with the end value. *)
Lemma capture_all_present h (o : ref) (items : list (string * R)) :
  forall d,
  NoDup (d.*1 ++ items.*1) ->
  Forall (fun p => exists cur, getattr h o p.1 = Ok cur) items ->
  exists c,
    Animation.capture h o items d = (d ++ c, Ok tt) /\
    Forall2 (fun p q => q.1 = p.1 /\ q.2.2 = p.2 /\
                        getattr h o p.1 = Ok q.2.1) items c.
Proof.
  induction items as [|[n v] items IH]; intros d Hnd Hall.
  - exists []. rewrite app_nil_r. split; [reflexivity | constructor].
  - inversion Hall as [|? ? [cur Hcur] Hrest]; subst. cbn in Hcur.
    cbn [Animation.capture]. rewrite Hcur.
    cbn in Hnd. apply NoDup_app in Hnd as (Hd & Hdis & Hitems).
    apply NoDup_cons in Hitems as [Hn Hitems].
    rewrite dict_set_fresh
      by (intros Hin; apply (Hdis n Hin), list_elem_of_here).
    destruct (IH (d ++ [(n, (cur, v))])) as (c & Hc & Hf2).
    + rewrite fmap_app. cbn. rewrite <- app_assoc. cbn.
      apply NoDup_app. repeat split; [assumption| |constructor; assumption].
      intros x Hx Hx'. apply (Hdis x Hx). exact Hx'.
    + exact Hrest.
    + exists ((n, (cur, v)) :: c). rewrite Hc, <- app_assoc. cbn.
      split; [reflexivity|]. constructor; [cbn; auto | exact Hf2].
Qed.

(** Some property is missing: the loop stops with [AttributeError]. *)
Lemma capture_missing h (o : ref) (items : list (string * R)) :
  forall d,
  Exists (fun p => getattr h o p.1 = Raise AttributeError) items ->
  (Animation.capture h o items d).2 = Raise AttributeError.
Proof.
  induction items as [|[n v] items IH]; intros d Hex.
  - inversion Hex.
  - cbn [Animation.capture].
    destruct (getattr h o n) as [cur|e] eqn:Hget.
    + inversion Hex as [? ? Hhead|? ? Hrest]; subst.
      * cbn in Hhead. congruence.
      * apply IH, Hrest.
    + cbn. f_equal. eapply getattr_raises, Hget.
Qed.

End AnimationStart.

(** X12: when the target has every configured attribute (distinct names),
    [start] succeeds and binds the target to a dict that lists, in the order
    of the configured properties, the target's current value as start and
    the configured value as end. *)
Theorem start_captures_current_values
  (self : Animation.t) (w : world) (sprite : ref) :
  NoDup (Animation.props self).*1 ->
  Forall (fun p => exists cur, getattr (heap w) sprite p.1 = Ok cur)
    (Animation.props self) ->
  exists d,
    Animation.start self w sprite
      = (Animation.set_targets self (Some [(sprite, d)]), Ok tt) /\
    Forall2 (fun p q => q.1 = p.1 /\ q.2.2 = p.2 /\
                        getattr (heap w) sprite p.1 = Ok q.2.1)
      (Animation.props self) d.
Proof.
  intros Hnd Hall.
  destruct (capture_all_present (heap w) sprite (Animation.props self) []
              Hnd Hall) as (d & Hc & Hf2).
  exists d. split; [|exact Hf2].
  unfold Animation.start. cbn [Animation.capture_all]. rewrite Hc.
  reflexivity.
Qed.

(** X12 on a sprite at (3, 4) animated towards (100, 50). *)
Lemma start_captures_current_values_witness :
  let self :=
    Animation.mk None false false 1000 0 (easing_fn Linear) 0
      [("x", 100); ("y", 50)] None ∅ in
  let w := World {[ 1%positive := {[ "x" := 3; "y" := 4 ]} ]} [] in
  exists d,
    Animation.start self w 1%positive
      = (Animation.set_targets self (Some [(1%positive, d)]), Ok tt) /\
    Forall2 (fun p q => q.1 = p.1 /\ q.2.2 = p.2 /\
                        getattr (heap w) 1%positive p.1 = Ok q.2.1)
      [("x", 100); ("y", 50)] d.
Proof.
  apply (start_captures_current_values
           (Animation.mk None false false 1000 0 (easing_fn Linear) 0
              [("x", 100); ("y", 50)] None ∅)
           (World {[ 1%positive := {[ "x" := 3; "y" := 4 ]} ]} [])
           1%positive).
  - cbn. repeat constructor.
    + intros Hin%list_elem_of_singleton. discriminate.
    + intros Hin%elem_of_nil. contradiction.
  - repeat constructor; eexists; reflexivity.
Defined.

(** X13: when the target lacks one of the configured attributes, [start]
    raises [AttributeError]; the animation is nevertheless left bound to
    that target (and to no other). *)
Theorem start_missing_attribute
  (self : Animation.t) (w : world) (sprite : ref) :
  Exists (fun p => getattr (heap w) sprite p.1 = Raise AttributeError)
    (Animation.props self) ->
  (Animation.start self w sprite).2 = Raise AttributeError /\
  Animation.bound (Animation.start self w sprite).1 = [sprite].
Proof.
  intros Hex. split; [|apply start_bound].
  pose proof (capture_missing (heap w) sprite (Animation.props self) [] Hex)
    as Hraise.
  unfold Animation.start. cbn [Animation.capture_all].
  destruct (Animation.capture (heap w) sprite (Animation.props self) [])
    as [d [[]|e]]; cbn in *; congruence.
Qed.

(** X13 on a sprite that has [x] but not [y]. *)
Lemma start_missing_attribute_witness :
  let self :=
    Animation.mk None false false 1000 0 (easing_fn Linear) 0
      [("x", 100); ("y", 50)] None ∅ in
  let w := World {[ 1%positive := {[ "x" := 3 ]} ]} [] in
  (Animation.start self w 1%positive).2 = Raise AttributeError /\
  Animation.bound (Animation.start self w 1%positive).1 = [1%positive].
Proof.
  apply (start_missing_attribute
           (Animation.mk None false false 1000 0 (easing_fn Linear) 0
              [("x", 100); ("y", 50)] None ∅)
           (World {[ 1%positive := {[ "x" := 3 ]} ]} []) 1%positive).
  apply Exists_cons_tl, Exists_cons_hd. reflexivity.
Defined.

Section AnimationFrames.

Implicit Types (self : Animation.t) (w : world) (dt : R).

Lemma easing_at_1 (e : easing) : easing_fn e 1 = Ok 1.
Proof.
  pose proof linear_bounds. pose proof quad_bounds. pose proof cubic_bounds.
  pose proof quart_bounds. pose proof quint_bounds. pose proof sine_bounds.
  pose proof expo_bounds. pose proof circ_bounds. pose proof back_bounds.
  pose proof bounce_bounds. pose proof elastic_at_1.
  destruct e; cbn [easing_fn]; first [ tauto | f_equal; tauto ].
Qed.

(** The progress of a call whose clock is not negative lies in the unit
    interval. *)
Lemma progress_in_unit (elapsed duration : R) :
  0 <= elapsed -> 0 < duration -> 0 <= Rmin 1 (elapsed / duration) <= 1.
Proof.
  intros He Hd.
  assert (0 <= elapsed / duration)
    by (apply Rmult_le_pos; [lra | left; apply Rinv_0_lt_compat; lra]).
  unfold Rmin. case_match; lra.
Qed.

(** What [update] leaves alone in the heap. *)
Lemma update_heap_frame self w dt (o : ref) (n : string) :
  (forall targets items,
     Animation._targets self = Some targets ->
     (o, items) ∈ targets -> n ∉ items.*1) ->
  getattr (heap (Animation.update self w dt).1.2) o n = getattr (heap w) o n /\
  (is_Some (heap (Animation.update self w dt).1.2 !! o)
     <-> is_Some (heap w !! o)).
Proof.
  intros Hfree. unfold Animation.update. cbn.
  repeat first [ case_decide | case_match ]; cbn; try (split; reflexivity);
    simplify_eq;
    (split; [ apply write_targets_other_key; intros items Hin;
              eapply Hfree; [reflexivity | exact Hin]
            | apply write_targets_is_Some ]).
Qed.

(** The blend of a progress in the unit interval lies between the start
    and the end value. *)
Lemma blend_between (t a b : R) :
  0 <= t <= 1 ->
  Rmin a b <= Animation.blend false t (a, b) <= Rmax a b.
Proof.
  intros Ht. cbn [Animation.blend].
  unfold Rmin, Rmax. case_match; split; nra.
Qed.

(** The rounding used by [round_values] moves a value by at most 1/2. *)
Lemma py_round_close (x : R) : Rabs (IZR (py_round x) - x) <= 1 / 2.
Proof.
  unfold py_round.
  pose proof (base_fp x) as [Hf0 Hf1].
  assert (Hx : x = IZR (Int_part x) + frac_part x) by (unfold frac_part; lra).
  repeat case_match; rewrite ?plus_IZR;
    apply Rabs_le; lra.
Qed.

End AnimationFrames.

(** X14: [update] changes no attribute other than those named in the dict
    of a bound target, and it neither creates nor deletes an object. *)
Theorem update_writes_only_bound_attributes
  (self : Animation.t) (w : world) (dt : R) (o : ref) (n : string) :
  (forall targets items,
     Animation._targets self = Some targets ->
     (o, items) ∈ targets -> n ∉ items.*1) ->
  getattr (heap (Animation.update self w dt).1.2) o n = getattr (heap w) o n /\
  (is_Some (heap (Animation.update self w dt).1.2 !! o)
     <-> is_Some (heap w !! o)).
Proof. apply update_heap_frame. Qed.

(** X14 on a sprite animated along [x]: the completing call leaves its [y]
    at 4. *)
Lemma update_writes_only_bound_attributes_witness :
  let self :=
    Animation.mk (Some [(1%positive, [("x", (3, 100))])]) false false 1000 0
      (easing_fn Linear) 0 [("x", 100)] None ∅ in
  let w := World {[ 1%positive := {[ "x" := 3; "y" := 4 ]} ]} [] in
  getattr (heap (Animation.update self w 1000).1.2) 1%positive "y" = Ok 4.
Proof.
  cbn zeta.
  destruct (update_writes_only_bound_attributes
              (Animation.mk (Some [(1%positive, [("x", (3, 100))])]) false
                 false 1000 0 (easing_fn Linear) 0 [("x", 100)] None ∅)
              (World {[ 1%positive := {[ "x" := 3; "y" := 4 ]} ]} [])
              1000 1%positive "y") as [Hget _].
  - intros targets items [= <-] Hin%list_elem_of_singleton.
    injection Hin as ->. cbn.
    intros Hy%list_elem_of_singleton. discriminate.
  - rewrite Hget. reflexivity.
Defined.

Section AnimationSingleTarget.

Implicit Types (self : Animation.t) (w : world) (dt : R).

(** The frame of a call past the delay, read back attribute by attribute,
    for an animation bound to one target by [start]. *)
Lemma update_single_target self w dt (o : ref)
  (items : list (string * (R * R))) (t : R) (n : string) (vals : R * R) :
  Animation._targets self = Some [(o, items)] ->
  NoDup items.*1 ->
  is_Some (heap w !! o) ->
  Animation._delay self <= Animation._elapsed self + dt ->
  Animation._duration self <> 0 ->
  Animation._transition self
    (Rmin 1 ((Animation._elapsed self + dt) / Animation._duration self))
    = Ok t ->
  (n, vals) ∈ items ->
  (Animation.update self w dt).2 = Ok tt /\
  getattr (heap (Animation.update self w dt).1.2) o n
    = Ok (Animation.blend (Animation._round_values self) t vals).
Proof.
  intros Htg Hnd Ho Hge HD Ht Hin.
  rewrite (update_running self w dt [(o, items)] t Htg Hge HD Ht).
  assert (Hget :
    getattr (Animation.write_targets (Animation._round_values self) t
               [(o, items)] (heap w)) o n
    = Ok (Animation.blend (Animation._round_values self) t vals))
    by (cbn [Animation.write_targets]; apply write_props_get; assumption).
  case_decide; [destruct (Animation.callback self)|]; cbn; auto.
Qed.

End AnimationSingleTarget.

(** X15: over exact real arithmetic, whatever the curve of the catalogue,
    the call of [update] that brings the progress to 1 writes to every
    animated attribute exactly its end value (without [round_values]), and
    returns normally.  (In floating point some curves, [in_back] and
    [in_sine] among them, miss 1 by one unit in the last place; this is not
    covered.) *)
Theorem completing_update_writes_end_values
  (self : Animation.t) (w : world) (dt : R) (e : easing) (o : ref)
  (items : list (string * (R * R))) (n : string) (a b : R) :
  Animation._transition self = easing_fn e ->
  Animation._round_values self = false ->
  Animation._targets self = Some [(o, items)] ->
  NoDup items.*1 ->
  is_Some (heap w !! o) ->
  0 < Animation._duration self ->
  Animation._delay self <= Animation._elapsed self + dt ->
  Animation._duration self <= Animation._elapsed self + dt ->
  (n, (a, b)) ∈ items ->
  (Animation.update self w dt).2 = Ok tt /\
  getattr (heap (Animation.update self w dt).1.2) o n = Ok b.
Proof.
  intros Htr Hrv Htg Hnd Ho HD Hge Hfull Hin.
  assert (Hp : Rmin 1 ((Animation._elapsed self + dt)
                         / Animation._duration self) = 1).
  { apply Rmin_left. apply Rmult_le_reg_r with (Animation._duration self);
      [lra|]. unfold Rdiv. rewrite Rmult_assoc, Rinv_l by lra. lra. }
  destruct (update_single_target self w dt o items 1 n (a, b)) as [Hok Hget];
    try assumption; try lra.
  { rewrite Hp, Htr. apply easing_at_1. }
  split; [exact Hok|]. rewrite Hget, Hrv. cbn [Animation.blend].
  f_equal. lra.
Qed.

(** X15 with [out_elastic], two properties and a step past the duration. *)
Lemma completing_update_writes_end_values_witness :
  let self :=
    Animation.mk (Some [(1%positive, [("x", (3, 100)); ("y", (4, 50))])])
      false false 1000 0 (easing_fn OutElastic) 0 [("x", 100); ("y", 50)]
      None ∅ in
  let w := World {[ 1%positive := {[ "x" := 3; "y" := 4 ]} ]} [] in
  (Animation.update self w 1200).2 = Ok tt /\
  getattr (heap (Animation.update self w 1200).1.2) 1%positive "y" = Ok 50.
Proof.
  apply (completing_update_writes_end_values
           (Animation.mk
              (Some [(1%positive, [("x", (3, 100)); ("y", (4, 50))])])
              false false 1000 0 (easing_fn OutElastic) 0
              [("x", 100); ("y", 50)] None ∅)
           (World {[ 1%positive := {[ "x" := 3; "y" := 4 ]} ]} [])
           1200 OutElastic 1%positive [("x", (3, 100)); ("y", (4, 50))]
           "y" 4 50).
  - reflexivity.
  - reflexivity.
  - reflexivity.
  - cbn. repeat constructor.
    + intros Hin%list_elem_of_singleton. discriminate.
    + intros Hin%elem_of_nil. contradiction.
  - cbn [heap]. rewrite lookup_singleton_eq. eauto.
  - ani_fields. lra.
  - ani_fields. lra.
  - ani_fields. lra.
  - apply list_elem_of_further, list_elem_of_here.
Defined.

(** X16: over exact real arithmetic, with a curve outside the back and
    elastic families, a clock that is not negative and no rounding, every
    value written by [update] lies between the captured start value and the
    end value.  (The floating-point blend can leave that range by one unit
    in the last place; this is not covered.) *)
Theorem update_stays_between_start_and_end
  (self : Animation.t) (w : world) (dt : R) (e : easing) (o : ref)
  (items : list (string * (R * R))) (n : string) (a b : R) :
  Animation._transition self = easing_fn e ->
  e ∉ [InBack; OutBack; InOutBack; InElastic; OutElastic; InOutElastic] ->
  Animation._round_values self = false ->
  Animation._targets self = Some [(o, items)] ->
  NoDup items.*1 ->
  is_Some (heap w !! o) ->
  0 < Animation._duration self ->
  0 <= Animation._elapsed self + dt ->
  Animation._delay self <= Animation._elapsed self + dt ->
  (n, (a, b)) ∈ items ->
  exists v,
    getattr (heap (Animation.update self w dt).1.2) o n = Ok v /\
    Rmin a b <= v <= Rmax a b.
Proof.
  intros Htr He Hrv Htg Hnd Ho HD Hclock Hge Hin.
  pose proof (progress_in_unit _ _ Hclock HD) as Hp.
  destruct (easing_unit_range e _ He Hp) as (t & Ht & Hunit).
  destruct (update_single_target self w dt o items t n (a, b)) as [_ Hget];
    try assumption; try lra.
  { rewrite Htr. exact Ht. }
  eexists. split; [exact Hget|]. rewrite Hrv. apply blend_between, Hunit.
Qed.

(** X16 with [out_bounce] at three quarters of the duration. *)
Lemma update_stays_between_start_and_end_witness :
  let self :=
    Animation.mk (Some [(1%positive, [("x", (3, 100))])]) false false 1000 0
      (easing_fn OutBounce) 0 [("x", 100)] None ∅ in
  let w := World {[ 1%positive := {[ "x" := 3 ]} ]} [] in
  exists v,
    getattr (heap (Animation.update self w 750).1.2) 1%positive "x" = Ok v /\
    Rmin 3 100 <= v <= Rmax 3 100.
Proof.
  apply (update_stays_between_start_and_end
           (Animation.mk (Some [(1%positive, [("x", (3, 100))])]) false false
              1000 0 (easing_fn OutBounce) 0 [("x", 100)] None ∅)
           (World {[ 1%positive := {[ "x" := 3 ]} ]} [])
           750 OutBounce 1%positive [("x", (3, 100))] "x" 3 100).
  - reflexivity.
  - intros Hin.
    repeat (apply elem_of_cons in Hin as [Hin|Hin]; [discriminate|]).
    apply elem_of_nil in Hin. contradiction.
  - reflexivity.
  - reflexivity.
  - cbn. repeat constructor. intros Hin%elem_of_nil. contradiction.
  - cbn [heap]. rewrite lookup_singleton_eq. eauto.
  - ani_fields. lra.
  - ani_fields. lra.
  - ani_fields. lra.
  - apply list_elem_of_here.
Defined.

(** X17: with [round_values], every value written by [update] is an
    integer, at most 1/2 away from the interpolated value
    [a * (1 - t) + b * t]. *)
Theorem rounded_update_writes_nearest_integers
  (self : Animation.t) (w : world) (dt : R) (o : ref)
  (items : list (string * (R * R))) (t : R) (n : string) (a b : R) :
  Animation._round_values self = true ->
  Animation._targets self = Some [(o, items)] ->
  NoDup items.*1 ->
  is_Some (heap w !! o) ->
  Animation._delay self <= Animation._elapsed self + dt ->
  Animation._duration self <> 0 ->
  Animation._transition self
    (Rmin 1 ((Animation._elapsed self + dt) / Animation._duration self))
    = Ok t ->
  (n, (a, b)) ∈ items ->
  exists z : Z,
    getattr (heap (Animation.update self w dt).1.2) o n = Ok (IZR z) /\
    Rabs (IZR z - (a * (1 - t) + b * t)) <= 1 / 2.
Proof.
  intros Hrv Htg Hnd Ho Hge HD Ht Hin.
  destruct (update_single_target self w dt o items t n (a, b)) as [_ Hget];
    try assumption.
  rewrite Hrv in Hget. cbn [Animation.blend] in Hget.
  eexists. split; [exact Hget|].
  replace (a * (1 - t) + b * t) with (a * (1.0 - t) + b * t) by lra.
  apply py_round_close.
Qed.

(** X17 on a sprite moved from 0 towards 10, at one third of the
    duration. *)
Lemma rounded_update_writes_nearest_integers_witness :
  let self :=
    Animation.mk (Some [(1%positive, [("x", (0, 10))])]) false true 900 0
      (easing_fn Linear) 0 [("x", 10)] None ∅ in
  let w := World {[ 1%positive := {[ "x" := 0 ]} ]} [] in
  let t := AnimationTransition.linear (Rmin 1 ((0 + 300) / 900)) in
  exists z : Z,
    getattr (heap (Animation.update self w 300).1.2) 1%positive "x"
      = Ok (IZR z) /\
    Rabs (IZR z - (0 * (1 - t) + 10 * t)) <= 1 / 2.
Proof.
  apply (rounded_update_writes_nearest_integers
           (Animation.mk (Some [(1%positive, [("x", (0, 10))])]) false true
              900 0 (easing_fn Linear) 0 [("x", 10)] None ∅)
           (World {[ 1%positive := {[ "x" := 0 ]} ]} [])
           300 1%positive [("x", (0, 10))]
           (AnimationTransition.linear (Rmin 1 ((0 + 300) / 900))) "x" 0 10).
  - reflexivity.
  - reflexivity.
  - cbn. repeat constructor. intros Hin%elem_of_nil. contradiction.
  - cbn [heap]. rewrite lookup_singleton_eq. eauto.
  - ani_fields. lra.
  - ani_fields. lra.
  - reflexivity.
  - apply list_elem_of_here.
Defined.

(** X18: a started animation with a curve of the catalogue, a positive
    duration and a clock that is not negative never raises in [update]. *)
Theorem started_update_never_raises
  (self : Animation.t) (w : world) (dt : R) (e : easing)
  (targets : list (ref * list (string * (R * R)))) :
  Animation._transition self = easing_fn e ->
  Animation._targets self = Some targets ->
  0 < Animation._duration self ->
  0 <= Animation._elapsed self + dt ->
  (Animation.update self w dt).2 = Ok tt.
Proof.
  intros Htr Htg HD Hclock.
  destruct (Rlt_le_dec (Animation._elapsed self + dt) (Animation._delay self))
    as [Hlt|Hge].
  - rewrite update_delayed by assumption. reflexivity.
  - pose proof (progress_in_unit _ _ Hclock HD) as Hp.
    destruct (easing_returns_on_unit_interval e _ Hp) as (t & Ht).
    rewrite (update_running self w dt targets t Htg Hge)
      by (first [lra | rewrite Htr; exact Ht]).
    case_decide; reflexivity.
Qed.

(** X18 with [in_out_circ] at 40 percent of the duration. *)
Lemma started_update_never_raises_witness :
  let self :=
    Animation.mk (Some [(1%positive, [("x", (0, 10))])]) false false 1000 0
      (easing_fn InOutCirc) 0 [("x", 10)] None ∅ in
  (Animation.update self (World ∅ []) 400).2 = Ok tt.
Proof.
  apply (started_update_never_raises
           (Animation.mk (Some [(1%positive, [("x", (0, 10))])]) false false
              1000 0 (easing_fn InOutCirc) 0 [("x", 10)] None ∅)
           (World ∅ []) 400 InOutCirc [(1%positive, [("x", (0, 10))])]).
  - reflexivity.
  - reflexivity.
  - ani_fields. lra.
  - ani_fields. lra.
Defined.

(** X19: [start] does not rewind the clock.  After the call that completed
    an animation, [start] on a new target followed by any [update] with a
    step that is not negative completes at once: the callback is invoked a
    second time and the bindings are cleared again. *)
Theorem restart_completes_at_once
  (self : Animation.t) (w w1 w2 : world) (dt dt' : R)
  (targets : list (ref * list (string * (R * R)))) (f : ref) (t1 : R)
  (sprite : ref) :
  Animation._targets self = Some targets ->
  Animation.callback self = Some f ->
  0 < Animation._duration self ->
  Animation._transition self 1 = Ok t1 ->
  Animation._delay self <= Animation._elapsed self + dt ->
  Animation._duration self <= Animation._elapsed self + dt ->
  0 <= dt' ->
  let finished := (Animation.update self w dt).1.1 in
  let restarted := (Animation.start finished w1 sprite).1 in
  let r := Animation.update restarted w2 dt' in
  Animation._targets finished = None /\
  Animation.bound restarted = [sprite] /\
  r.2 = Ok tt /\
  trace r.1.2 = Call f [] [] :: trace w2 /\
  Animation._targets r.1.1 = None.
Proof.
  intros Htg Hcb HD Ht1 Hge Hfull Hdt'. cbn zeta.
  assert (Hone : forall x, Animation._duration self <= x ->
            Rmin 1 (x / Animation._duration self) = 1).
  { intros x Hx. apply Rmin_left.
    apply Rmult_le_reg_r with (Animation._duration self); [lra|].
    unfold Rdiv. rewrite Rmult_assoc, Rinv_l by lra. lra. }
  pose proof (update_frame self w dt) as (He & HD' & Hdl & Htr & _ & Hcb' & _).
  cbn zeta in He, HD', Hdl, Htr, Hcb'.
  assert (Hfin : Animation._targets (Animation.update self w dt).1.1 = None).
  { rewrite (update_running self w dt targets t1 Htg Hge)
      by (first [lra | rewrite Hone by lra; exact Ht1]).
    rewrite Hone by lra. case_decide; [|lra]. reflexivity. }
  split; [exact Hfin|]. split; [apply start_bound|].
  set (finished := (Animation.update self w dt).1.1) in *.
  rewrite (start_is_set_targets finished w1 sprite).
  destruct (Animation._targets (Animation.start finished w1 sprite).1)
    as [ts|] eqn:Hts.
  2: { pose proof (start_bound finished w1 sprite) as Hb.
       unfold Animation.bound in Hb. rewrite Hts in Hb. discriminate. }
  rewrite (update_running (Animation.set_targets finished (Some ts)) w2 dt'
             ts t1);
    ani_fields; rewrite ?He, ?HD', ?Hdl, ?Htr, ?Hcb';
    try reflexivity; try lra.
  - rewrite Hone by lra. case_decide; [|lra]. rewrite Hcb.
    repeat split.
  - rewrite Hone by lra. exact Ht1.
Qed.

(** X19 on an animation of duration 1000 completed by one step, restarted
    on a second sprite and updated with a zero step. *)
Lemma restart_completes_at_once_witness :
  let self :=
    Animation.mk (Some [(1%positive, [("x", (0, 100))])]) false false 1000 0
      (easing_fn Linear) 0 [("x", 100)] (Some 9%positive) ∅ in
  let w := World {[ 1%positive := {[ "x" := 0 ]};
                    2%positive := {[ "x" := 0 ]} ]} [] in
  let finished := (Animation.update self w 1000).1.1 in
  let restarted := (Animation.start finished w 2%positive).1 in
  let r := Animation.update restarted w 0 in
  r.2 = Ok tt /\ trace r.1.2 = [Call 9%positive [] []].
Proof.
  cbn zeta.
  destruct (restart_completes_at_once
              (Animation.mk (Some [(1%positive, [("x", (0, 100))])]) false
                 false 1000 0 (easing_fn Linear) 0 [("x", 100)]
                 (Some 9%positive) ∅)
              (World {[ 1%positive := {[ "x" := 0 ]};
                        2%positive := {[ "x" := 0 ]} ]} [])
              (World {[ 1%positive := {[ "x" := 0 ]};
                        2%positive := {[ "x" := 0 ]} ]} [])
              (World {[ 1%positive := {[ "x" := 0 ]};
                        2%positive := {[ "x" := 0 ]} ]} [])
              1000 0 [(1%positive, [("x", (0, 100))])] 9%positive 1
              2%positive) as (_ & _ & Hok & Htrace & _);
    try reflexivity; try (ani_fields; lra).
  split; [exact Hok | exact Htrace].
Defined.

Section AnimationSplit.

Implicit Types (self : Animation.t) (w : world) (dt : R).
Implicit Types (h : gmap ref (gmap string R)).

Lemma getattr_setattr_same h h' (o : ref) (n : string) (v : R) :
  (is_Some (h !! o) <-> is_Some (h' !! o)) ->
  getattr (setattr h o n v) o n = getattr (setattr h' o n v) o n.
Proof.
  intros Hdom. unfold getattr, setattr. rewrite !lookup_alter_eq.
  destruct (h !! o) as [attrs|] eqn:E, (h' !! o) as [attrs'|] eqn:E'; cbn.
  - rewrite !lookup_insert_eq. reflexivity.
  - destruct Hdom as [Hd _]. destruct Hd as [? ?]; [eauto | discriminate].
  - destruct Hdom as [_ Hd]. destruct Hd as [? ?]; [eauto | discriminate].
  - reflexivity.
Qed.

(** Two heaps with the same objects and the same attribute values are
    equal. *)
Lemma heap_ext h h' :
  (forall o, is_Some (h !! o) <-> is_Some (h' !! o)) ->
  (forall o n, getattr h o n = getattr h' o n) ->
  h = h'.
Proof.
  intros Hdom Hget. apply map_eq. intros o.
  specialize (Hdom o).
  destruct (h !! o) as [attrs|] eqn:E, (h' !! o) as [attrs'|] eqn:E'.
  - f_equal. apply map_eq. intros n. specialize (Hget o n).
    unfold getattr in Hget. rewrite E, E' in Hget. cbn in Hget.
    destruct (attrs !! n), (attrs' !! n); congruence.
  - destruct Hdom as [Hd _]. destruct Hd as [? ?]; [eauto | discriminate].
  - destruct Hdom as [_ Hd]. destruct Hd as [? ?]; [eauto | discriminate].
  - reflexivity.
Qed.

(** Writing a frame erases the differences between two heaps at the
    attributes it writes: if the heaps agree elsewhere (outside [P]), the
    results agree (outside [P]). *)
Lemma write_props_erase (P : ref -> string -> Prop) (rv : bool) (t : R)
  (o : ref) (items : list (string * (R * R))) : forall h h',
  (forall o', is_Some (h !! o') <-> is_Some (h' !! o')) ->
  (forall o' n', ~ P o' n' -> ~ (o' = o /\ n' ∈ items.*1) ->
     getattr h o' n' = getattr h' o' n') ->
  forall o' n', ~ P o' n' ->
    getattr (Animation.write_props rv t o items h) o' n'
    = getattr (Animation.write_props rv t o items h') o' n'.
Proof.
  induction items as [|[n0 v0] items IH]; intros h h' Hdom Hag o' n' HP.
  - cbn. apply Hag; [exact HP|]. intros [_ Hin%elem_of_nil]. exact Hin.
  - cbn. apply IH; [ | | exact HP].
    + intros o''. rewrite !setattr_is_Some. apply Hdom.
    + intros o'' n'' HP'' Hnot.
      destruct (decide (o'' = o /\ n'' = n0)) as [[-> ->]|Hne].
      * apply getattr_setattr_same, Hdom.
      * rewrite !getattr_setattr_ne
          by (destruct (decide (o'' = o)); [right; intros ->; tauto | auto]).
        apply Hag; [exact HP''|]. intros [-> Hin]. cbn in Hin.
        apply elem_of_cons in Hin as [->|Hin]; tauto.
Qed.

Lemma write_targets_erase (rv : bool) (t : R)
  (targets : list (ref * list (string * (R * R)))) :
  forall (P : ref -> string -> Prop) h h',
  (forall o', is_Some (h !! o') <-> is_Some (h' !! o')) ->
  (forall o' n', ~ P o' n' ->
     ~ (exists items, (o', items) ∈ targets /\ n' ∈ items.*1) ->
     getattr h o' n' = getattr h' o' n') ->
  forall o' n', ~ P o' n' ->
    getattr (Animation.write_targets rv t targets h) o' n'
    = getattr (Animation.write_targets rv t targets h') o' n'.
Proof.
  induction targets as [|[o items] targets IH]; intros P h h' Hdom Hag o' n' HP.
  - cbn. apply Hag; [exact HP|].
    intros (items & Hin%elem_of_nil & _). exact Hin.
  - cbn. apply (IH P); [ | | exact HP].
    + intros o''. rewrite !write_props_is_Some. apply Hdom.
    + intros o'' n'' HP'' Hrest.
      apply (write_props_erase
               (fun a b => P a b \/
                  exists items', (a, items') ∈ targets /\ b ∈ items'.*1));
        [exact Hdom | | tauto].
      intros a b Hnot Hhead. apply Hag; [tauto|].
      intros (items' & Hin & Hb).
      apply elem_of_cons in Hin as [[= -> ->]|Hin]; [tauto|].
      apply Hnot. right. eauto.
Qed.

(** A frame written over an earlier frame of the same bindings is the
    frame written over the original heap. *)
Lemma write_targets_overwrite (rv : bool) (t1 t2 : R)
  (targets : list (ref * list (string * (R * R)))) h :
  Animation.write_targets rv t2 targets
    (Animation.write_targets rv t1 targets h)
  = Animation.write_targets rv t2 targets h.
Proof.
  apply heap_ext.
  - intros o. rewrite !write_targets_is_Some. reflexivity.
  - intros o n.
    apply (write_targets_erase rv t2 targets (fun _ _ => False)); [ | | tauto].
    + intros o'. apply write_targets_is_Some.
    + intros o' n' _ Hnot. apply write_targets_other_key.
      intros items Hin Hn. apply Hnot. eauto.
Qed.

(** A call that does not complete the animation moves the clock and at
    most writes one frame. *)
Lemma update_incomplete_state self w dt targets :
  Animation._targets self = Some targets ->
  Animation._duration self <> 0 ->
  Animation._elapsed self + dt < Animation._delay self \/
    (Animation._elapsed self + dt) / Animation._duration self < 1 ->
  (Animation.update self w dt).1.1
    = Animation.set_elapsed self (Animation._elapsed self + dt) /\
  ((Animation.update self w dt).1.2 = w \/
   exists t,
     (Animation.update self w dt).1.2
     = World (Animation.write_targets (Animation._round_values self) t
                targets (heap w)) (trace w)).
Proof.
  intros Htg HD Hlt. unfold Animation.update, py_div. cbn. rewrite Htg.
  case_decide; [auto|]. case_decide; [contradiction|].
  destruct Hlt as [Hlt|Hlt]; [lra|].
  case_match; [|auto].
  case_decide as Hp; [|eauto].
  exfalso. unfold Rmin in Hp. case_match; lra.
Qed.

End AnimationSplit.

(** X20: splitting a step does not change the frame.  If [update(d1)] does
    not complete the animation, then [update(d1); update(d2)] leaves the
    animation and the world exactly as the single call [update(d1 + d2)]
    does, provided that call is past the delay and its transition
    returns. *)
Theorem split_step_same_frame
  (self : Animation.t) (w : world) (d1 d2 : R)
  (targets : list (ref * list (string * (R * R)))) (t : R) :
  Animation._targets self = Some targets ->
  Animation._duration self <> 0 ->
  Animation._elapsed self + d1 < Animation._delay self \/
    (Animation._elapsed self + d1) / Animation._duration self < 1 ->
  Animation._delay self <= Animation._elapsed self + (d1 + d2) ->
  Animation._transition self
    (Rmin 1 ((Animation._elapsed self + (d1 + d2)) / Animation._duration self))
    = Ok t ->
  Animation.updates self w [d1; d2] = (Animation.update self w (d1 + d2)).1.
Proof.
  intros Htg HD Hinc Hge Ht.
  rewrite updates_cons. cbn [Animation.updates].
  destruct (update_incomplete_state self w d1 targets Htg HD Hinc)
    as [Hself Hworld].
  rewrite Hself.
  set (self1 := Animation.set_elapsed self (Animation._elapsed self + d1)).
  assert (Hassoc : Animation._elapsed self1 + d2
                   = Animation._elapsed self + (d1 + d2))
    by (subst self1; cbn; lra).
  assert (Hsame : forall w1,
    heap w1 = heap w \/
      (exists t1, heap w1 = Animation.write_targets
                              (Animation._round_values self) t1 targets
                              (heap w)) ->
    trace w1 = trace w ->
    (Animation.update self1 w1 d2).1 = (Animation.update self w (d1 + d2)).1).
  { intros w1 Hheap Htrace.
    rewrite (update_running self1 w1 d2 targets t);
      [ | exact Htg | rewrite Hassoc; exact Hge | exact HD
        | rewrite Hassoc; exact Ht ].
    rewrite (update_running self w (d1 + d2) targets t Htg Hge HD Ht).
    rewrite Hassoc, Htrace.
    assert (Hh : Animation.write_targets (Animation._round_values self1) t
                   targets (heap w1)
                 = Animation.write_targets (Animation._round_values self) t
                     targets (heap w)).
    { destruct Hheap as [->|[t1 ->]]; [reflexivity|].
      apply write_targets_overwrite. }
    rewrite Hh.
    assert (Hs : Animation.set_elapsed self1
                   (Animation._elapsed self + (d1 + d2))
                 = Animation.set_elapsed self
                     (Animation._elapsed self + (d1 + d2))) by reflexivity.
    rewrite Hs.
    change (Animation.callback self1) with (Animation.callback self).
    change (Animation._duration self1) with (Animation._duration self).
    case_decide; reflexivity. }
  destruct (Animation.update self1 (Animation.update self w d1).1.2 d2)
    as [[s2 w2] r2] eqn:E2.
  specialize (Hsame (Animation.update self w d1).1.2).
  rewrite E2 in Hsame. cbn [fst] in Hsame. apply Hsame.
  - destruct Hworld as [->|[t1 ->]]; [left; reflexivity | right; eauto].
  - destruct Hworld as [->|[t1 ->]]; reflexivity.
Qed.

(** X20 on an animation of duration 1000: steps 300 and 400 against one
    step of 700. *)
Lemma split_step_same_frame_witness :
  let self :=
    Animation.mk (Some [(1%positive, [("x", (0, 100))])]) false false 1000 0
      (easing_fn InQuad) 0 [("x", 100)] None ∅ in
  let w := World {[ 1%positive := {[ "x" := 0 ]} ]} [] in
  Animation.updates self w [300; 400]
    = (Animation.update self w (300 + 400)).1.
Proof.
  apply (split_step_same_frame
           (Animation.mk (Some [(1%positive, [("x", (0, 100))])]) false false
              1000 0 (easing_fn InQuad) 0 [("x", 100)] None ∅)
           (World {[ 1%positive := {[ "x" := 0 ]} ]} [])
           300 400 [(1%positive, [("x", (0, 100))])]
           (AnimationTransition.in_quad (Rmin 1 ((0 + (300 + 400)) / 1000)))).
  - reflexivity.
  - ani_fields. lra.
  - right. ani_fields. lra.
  - ani_fields. lra.
  - reflexivity.
Defined.

(** [ani_fields] in a hypothesis. *)
Ltac ani_fields_in H :=
  unfold Animation.set_targets, Animation.set_elapsed,
    Animation.set_callback, Animation.kill, Animation.add in H;
  cbn [Animation._targets Animation._started Animation._round_values
       Animation._duration Animation._delay Animation._transition
       Animation._elapsed Animation.props Animation.callback
       Animation.groups fst snd default from_option] in H;
  unfold Datatypes.id in H.

(** X21: [update] never rewinds or resets the clock: after any sequence of
    calls, including calls that raise and calls after completion,
    [_elapsed] is the initial value plus the sum of all steps, while
    duration and delay are unchanged. *)
Theorem clock_is_sum_of_steps (dts : list R) :
  forall (self : Animation.t) (w : world),
  let r := Animation.updates self w dts in
  Animation._elapsed r.1 = Animation._elapsed self + fold_right Rplus 0 dts /\
  Animation._duration r.1 = Animation._duration self /\
  Animation._delay r.1 = Animation._delay self.
Proof.
  induction dts as [|dt dts IH]; intros self w; cbn zeta.
  - cbn. repeat split. lra.
  - rewrite updates_cons.
    pose proof (update_frame self w dt) as (He & HD & Hdl & _).
    cbn zeta in He, HD, Hdl.
    destruct (IH (Animation.update self w dt).1.1
                 (Animation.update self w dt).1.2) as (He' & HD' & Hdl').
    rewrite He', HD', Hdl', He, HD, Hdl. cbn [fold_right].
    repeat split. lra.
Qed.

(** X23: an animation leaves its sprite groups exactly when it completes:
    a call past the delay whose transition returns empties the groups and
    clears the bindings if the progress reached 1, and leaves both as they
    were otherwise. *)
Theorem update_kills_exactly_on_completion
  (self : Animation.t) (w : world) (dt : R)
  (targets : list (ref * list (string * (R * R)))) (t : R) :
  Animation._targets self = Some targets ->
  Animation._delay self <= Animation._elapsed self + dt ->
  Animation._duration self <> 0 ->
  Animation._transition self
    (Rmin 1 ((Animation._elapsed self + dt) / Animation._duration self))
    = Ok t ->
  let r := Animation.update self w dt in
  if decide (1 <= (Animation._elapsed self + dt) / Animation._duration self)
  then Animation.groups r.1.1 = ∅ /\ Animation._targets r.1.1 = None
  else Animation.groups r.1.1 = Animation.groups self /\
       Animation._targets r.1.1 = Some targets.
Proof.
  intros Htg Hge HD Ht. cbn zeta.
  rewrite (update_running self w dt targets t Htg Hge HD Ht).
  unfold Rmin.
  repeat case_decide; repeat case_match; try lra; cbn; auto.
Qed.

(** X23 on an animation in one group: still a member at 999, gone at
    1000. *)
Lemma update_kills_exactly_on_completion_witness :
  let self :=
    Animation.mk (Some [(1%positive, [("x", (0, 100))])]) false false 1000 0
      (easing_fn Linear) 0 [("x", 100)] None {[ 7%positive ]} in
  Animation.groups (Animation.update self (World ∅ []) 999).1.1
    = {[ 7%positive ]} /\
  Animation.groups (Animation.update self (World ∅ []) 1000).1.1 = ∅.
Proof.
  cbn zeta. split.
  - pose proof (update_kills_exactly_on_completion
                  (Animation.mk (Some [(1%positive, [("x", (0, 100))])])
                     false false 1000 0 (easing_fn Linear) 0 [("x", 100)]
                     None {[ 7%positive ]})
                  (World ∅ []) 999 [(1%positive, [("x", (0, 100))])]
                  (AnimationTransition.linear (Rmin 1 ((0 + 999) / 1000)))
                  eq_refl) as H.
    cbn zeta in H. ani_fields_in H.
    case_decide; [lra|]. apply H; first [lra | reflexivity].
  - pose proof (update_kills_exactly_on_completion
                  (Animation.mk (Some [(1%positive, [("x", (0, 100))])])
                     false false 1000 0 (easing_fn Linear) 0 [("x", 100)]
                     None {[ 7%positive ]})
                  (World ∅ []) 1000 [(1%positive, [("x", (0, 100))])]
                  (AnimationTransition.linear (Rmin 1 ((0 + 1000) / 1000)))
                  eq_refl) as H.
    cbn zeta in H. ani_fields_in H.
    case_decide; [|lra]. apply H; first [lra | reflexivity].
Defined.

(** ** Progress and the delay; restarting *)

(** C1: once the delay has passed, [update(dt)] computes the progress as
    [p = min(1, elapsed / duration)], where [elapsed] is the whole
    accumulated time, delay included, and writes to each animated attribute
    the blend [a * (1 - t) + b * t] (rounded under [round_values]) of its
    captured values at [t = easing(p)]; hence the first frame after a
    positive delay already has [p > 0]. *)
Theorem update_progress_includes_delay
  (self : Animation.t) (w : world) (dt : R) (o : ref)
  (items : list (string * (R * R))) (t : R) (n : string) (a b : R) :
  Animation._targets self = Some [(o, items)] ->
  NoDup items.*1 ->
  is_Some (heap w !! o) ->
  (n, (a, b)) ∈ items ->
  Animation._delay self <= Animation._elapsed self + dt ->
  Animation._duration self <> 0 ->
  let elapsed := Animation._elapsed self + dt in
  let p := Rmin 1 (elapsed / Animation._duration self) in
  Animation._transition self p = Ok t ->
  let r := Animation.update self w dt in
  r.2 = Ok tt /\
  Animation._elapsed r.1.1 = elapsed /\
  getattr (heap r.1.2) o n =
    Ok (let value := a * (1 - t) + b * t in
        if Animation._round_values self then IZR (py_round value)
        else value) /\
  (0 < Animation._delay self -> 0 < Animation._duration self -> 0 < p).
Proof.
  intros Htg Hnd Ho Hin Hge HD elapsed p Ht r. subst r.
  destruct (update_single_target self w dt o items t n (a, b)
              Htg Hnd Ho Hge HD Ht Hin) as [Hok Hget].
  pose proof (update_frame self w dt) as (He & _). cbn zeta in He.
  repeat split.
  - exact Hok.
  - exact He.
  - rewrite Hget. cbn [Animation.blend]. cbn zeta.
    replace (a * (1.0 - t) + b * t) with (a * (1 - t) + b * t) by lra.
    reflexivity.
  - intros Hdelay Hdur. subst p. unfold Rmin. case_match; [lra|].
    apply Rdiv_lt_0_compat; [subst elapsed; lra | exact Hdur].
Qed.

(** C1 end to end: an animation of [x] to 100 with duration 1000 and delay
    500, started on a sprite at [x = 0]; the call [update(500)] that reaches
    the delay writes 50, the linear blend at progress 500/1000, not the 0
    that a progress counted from the end of the delay would give. *)
Lemma update_progress_includes_delay_witness :
  on_ok (Animation.__init__
           (Animation.Kwargs None (Some 1000) (Some 500) None [("x", 100)]))
    (fun ani =>
       let w := World {[ 1%positive := {[ "x" := 0 ]} ]} [] in
       let s := Animation.start ani w 1%positive in
       let r := Animation.update s.1 w 500 in
       s.2 = Ok tt /\ r.2 = Ok tt /\
       getattr (heap r.1.2) 1%positive "x" = Ok 50 /\
       0 < Rmin 1 ((0.0 + 500) / 1000)).
Proof.
  rewrite init_linear by auto. unfold on_ok. cbn zeta.
  erewrite start_single;
    [ | reflexivity
      | cbn [heap]; eapply getattr_lookup; apply lookup_singleton_eq ].
  ani_fields. split; [reflexivity|].
  destruct (update_progress_includes_delay
              (Animation.mk (Some [(1%positive, [("x", (0, 100))])]) false
                 false 1000 500 (easing_fn Linear) 0.0 [("x", 100)] None ∅)
              (World {[ 1%positive := {[ "x" := 0 ]} ]} []) 500 1%positive
              [("x", (0, 100))]
              (AnimationTransition.linear (Rmin 1 ((0.0 + 500) / 1000)))
              "x" 0 100)
    as (Hok & _ & Hget & Hp).
  - reflexivity.
  - cbn. repeat constructor. intros Hin%elem_of_nil. contradiction.
  - cbn [heap]. rewrite lookup_singleton_eq. eauto.
  - apply list_elem_of_here.
  - ani_fields. lra.
  - ani_fields. lra.
  - reflexivity.
  - split; [exact Hok|]. split.
    + etransitivity; [exact Hget|]. ani_fields. cbn zeta. f_equal.
      unfold AnimationTransition.linear. rewrite Rmin_right by lra. lra.
    + apply Hp; ani_fields; lra.
Defined.

(** C6 fails as stated: one animation with a completion callback, started
    on a first sprite and completed by [update(1000)], then started on a
    second sprite: the next [update(16)] returns normally and invokes the
    callback a second time. *)
Lemma callback_fires_again_after_restart :
  on_ok (Animation.__init__
           (Animation.Kwargs None None None None [("x", 100)]))
    (fun ani =>
       let ani := Animation.set_callback ani 9%positive in
       let w := World {[ 1%positive := {[ "x" := 0 ]};
                         2%positive := {[ "x" := 0 ]} ]} [] in
       let s1 := Animation.start ani w 1%positive in
       let r1 := Animation.update s1.1 w 1000 in
       let s2 := Animation.start r1.1.1 r1.1.2 2%positive in
       let r2 := Animation.update s2.1 r1.1.2 16 in
       s1.2 = Ok tt /\ r1.2 = Ok tt /\ s2.2 = Ok tt /\ r2.2 = Ok tt /\
       trace r1.1.2 = [Call 9%positive [] []] /\
       trace r2.1.2 = [Call 9%positive [] []; Call 9%positive [] []]).
Proof.
  rewrite init_linear by auto. unfold on_ok. cbn zeta.
  set (h := {[ 1%positive := {[ "x" := 0 ]};
               2%positive := {[ "x" := 0 ]} ]} : gmap ref (gmap string R)).
  assert (H1 : h !! 1%positive = Some {[ "x" := 0 ]}) by reflexivity.
  assert (H2 : h !! 2%positive = Some {[ "x" := 0 ]}) by reflexivity.
  assert (Hx : ({[ "x" := 0 ]} : gmap string R) !! "x" = Some 0)
    by apply lookup_singleton_eq.
  ani_fields.
  erewrite start_single;
    [ | reflexivity | cbn [heap]; eapply getattr_lookup; eassumption ].
  ani_fields.
  assert (Hp1 : Rmin 1 ((0.0 + 1000) / 1000.0) = 1)
    by (apply Rmin_left; lra).
  erewrite update_running with (t := 1);
    [ | reflexivity | ani_fields; lra | ani_fields; lra
      | ani_fields; rewrite Hp1; reflexivity ].
  ani_fields. rewrite Hp1. case_decide; [|lra].
  unfold invoke. cbn [fst snd heap trace].
  erewrite start_single;
    [ | reflexivity
      | cbn [heap];
        transitivity (getattr h 2%positive "x");
        [ apply getattr_other with (o := 1%positive);
          apply write_targets_other; cbn [List.map fst];
          intros Hin%list_elem_of_singleton; discriminate
        | eapply getattr_lookup; eassumption ] ].
  ani_fields.
  assert (Hp2 : Rmin 1 ((0.0 + 1000 + 16) / 1000.0) = 1)
    by (apply Rmin_left; lra).
  erewrite update_running with (t := 1);
    [ | reflexivity | ani_fields; lra | ani_fields; lra
      | ani_fields; rewrite Hp2; reflexivity ].
  ani_fields. rewrite Hp2. case_decide; [|lra].
  unfold invoke. cbn [fst snd heap trace].
  repeat split.
Qed.
